(** * tlphone: a phonetic key for Tulu words written in Kannada script

    A shallow embedding of [tlphone.go] (and of the second copy of the
    package, which differs in how it builds its patterns), with the
    properties its specification states.

    Go strings are UTF-8 byte sequences.  The [regexp] package reads them
    one code point at a time (an invalid byte reads as U+FFFD, one byte
    wide), and every key and replacement handed to [strings.ReplaceAll]
    is well-formed, so the program is followed on the sequence of code
    points of its strings: [gostring] is [list rune]. *)

From Stdlib Require Import NArith PeanoNat Ascii String List Bool Lia Permutation.
Import ListNotations.

Local Open Scope string_scope.
Local Open Scope list_scope.
Local Open Scope N_scope.

(** ** Strings as sequences of runes *)

Definition rune := N.
Definition gostring := list rune.

Definition RuneError : rune := 0xFFFD.

Definition cont (b : N) : bool := (0x80 <=? b) && (b <=? 0xBF).
Definition between (lo hi b : N) : bool := (lo <=? b) && (b <=? hi).
Definition low6 (b : N) : N := N.land b 0x3F.

(** [utf8.DecodeRuneInString]: the first rune of a byte sequence and its
    width; anything that is not a shortest-form encoding of a scalar value
    is [RuneError] of width 1. *)
Definition DecodeRune (bs : list N) : rune * nat :=
  match bs with
  | [] => (RuneError, 0%nat)
  | b0 :: t =>
    if b0 <? 0x80 then (b0, 1%nat)
    else if between 0xC2 0xDF b0 then
      match t with
      | b1 :: _ =>
        if cont b1 then (N.lor (N.shiftl (N.land b0 0x1F) 6) (low6 b1), 2%nat)
        else (RuneError, 1%nat)
      | _ => (RuneError, 1%nat)
      end
    else if between 0xE0 0xEF b0 then
      match t with
      | b1 :: b2 :: _ =>
        let lo := if b0 =? 0xE0 then 0xA0 else 0x80 in
        let hi := if b0 =? 0xED then 0x9F else 0xBF in
        if between lo hi b1 && cont b2 then
          (N.lor (N.shiftl (N.land b0 0x0F) 12)
                 (N.lor (N.shiftl (low6 b1) 6) (low6 b2)), 3%nat)
        else (RuneError, 1%nat)
      | _ => (RuneError, 1%nat)
      end
    else if between 0xF0 0xF4 b0 then
      match t with
      | b1 :: b2 :: b3 :: _ =>
        let lo := if b0 =? 0xF0 then 0x90 else 0x80 in
        let hi := if b0 =? 0xF4 then 0x8F else 0xBF in
        if between lo hi b1 && cont b2 && cont b3 then
          (N.lor (N.shiftl (N.land b0 0x07) 18)
                 (N.lor (N.shiftl (low6 b1) 12)
                        (N.lor (N.shiftl (low6 b2) 6) (low6 b3))), 4%nat)
        else (RuneError, 1%nat)
      | _ => (RuneError, 1%nat)
      end
    else (RuneError, 1%nat)
  end.

(** The runes of a byte sequence, read front to back ([[]rune(s)]). *)
Fixpoint decode (skip : nat) (bs : list N) : gostring :=
  match bs with
  | [] => []
  | _ :: t =>
    match skip with
    | S n => decode n t
    | O => let (r, w) := DecodeRune bs in r :: decode (Nat.pred w) t
    end
  end.

Definition bytes (s : string) : list N := map N_of_ascii (list_ascii_of_string s).

(** A string literal of the source, as the program's functions see it. *)
Definition runes (s : string) : gostring := decode 0 (bytes s).

(** ** The glyph tables *)

(** A Go [map[string]string] literal: its entries in the order they are
    written.  Keys are distinct (the Go compiler rejects a literal with a
    repeated key), so [lookup] does not depend on that order; the order in
    which [range] visits the entries is a separate matter, see [NewRanges]
    and [CallRanges]. *)
Definition table := list (gostring * gostring).

Definition tbl (entries : list (string * string)) : table :=
  map (fun e => (runes (fst e), runes (snd e))) entries.

Definition vowels : table := Eval vm_compute in tbl
  [("ಅ", "A"); ("ಆ", "A"); ("ಇ", "I"); ("ಈ", "I"); ("ಉ", "U"); ("ಊ", "U"); ("ಋ", "R");
   ("ಎ", "E"); ("ಏ", "E"); ("ಐ", "AI"); ("ಒ", "O"); ("ಓ", "O"); ("ಔ", "O")].

Definition consonants : table := Eval vm_compute in tbl
  [("ಕ", "K"); ("ಖ", "K"); ("ಗ", "K"); ("ಘ", "K"); ("ಙ", "NG");
   ("ಚ", "C"); ("ಛ", "C"); ("ಜ", "J"); ("ಝ", "J"); ("ಞ", "NJ");
   ("ಟ", "T"); ("ಠ", "T"); ("ಡ", "T"); ("ಢ", "T"); ("ಣ", "N1");
   ("ತ", "0"); ("ಥ", "0"); ("ದ", "0"); ("ಧ", "0"); ("ನ", "N");
   ("ಪ", "P"); ("ಫ", "F"); ("ಬ", "B"); ("ಭ", "B"); ("ಮ", "M");
   ("ಯ", "Y"); ("ರ", "R"); ("ಲ", "L"); ("ವ", "V");
   ("ಶ", "S1"); ("ಷ", "S1"); ("ಸ", "S"); ("ಹ", "H");
   ("ಳ", "L1"); ("ೞ", "Z"); ("ಱ", "R1")].

Definition compounds : table := Eval vm_compute in tbl
  [("ಕ್ಕ", "K2"); ("ಗ್ಗಾ", "K"); ("ಙ್ಙ", "NG");
   ("ಚ್ಚ", "C2"); ("ಜ್ಜ", "J"); ("ಞ್ಞ", "NJ");
   ("ಟ್ಟ", "T2"); ("ಣ್ಣ", "N2");
   ("ತ್ತ", "0"); ("ದ್ದ", "D"); ("ದ್ಧ", "D"); ("ನ್ನ", "NN");
   ("ಬ್ಬ", "B"); ("ಪ್ಪ", "P2"); ("ಮ್ಮ", "M2");
   ("ಯ್ಯ", "Y"); ("ಲ್ಲ", "L2"); ("ವ್ವ", "V");
   ("ಶ್ಶ", "S1"); ("ಸ್ಸ", "S"); ("ಳ್ಳ", "L12"); ("ಕ್ಷ", "KS1")].

Definition modifiers : table := Eval vm_compute in tbl
  [("ಾ", ""); ("ಃ", ""); ("್", ""); ("ೃ", "R");
   ("ಂ", "3"); ("ಿ", "4"); ("ೀ", "4"); ("ು", "5"); ("ೂ", "5"); ("ೆ", "6");
   ("ೇ", "6"); ("ೈ", "7"); ("ೊ", "8"); ("ೋ", "8"); ("ೌ", "9"); ("ൗ", "9")].

Definition keysOf (t : table) : list gostring := map fst t.

Fixpoint eqRunes (a b : gostring) : bool :=
  match a, b with
  | [], [] => true
  | x :: a', y :: b' => (x =? y) && eqRunes a' b'
  | _, _ => false
  end.

(** [glyphs[m]]: the value and whether the key is present. *)
Fixpoint lookup (t : table) (k : gostring) : option gostring :=
  match t with
  | [] => None
  | (k', v) :: t' => if eqRunes k' k then Some v else lookup t' k
  end.

(** ** The [strings] package *)

Fixpoint HasPrefix (s prefix : gostring) : bool :=
  match prefix with
  | [] => true
  | p :: ps =>
    match s with
    | c :: cs => (c =? p) && HasPrefix cs ps
    | [] => false
    end
  end.

(** Leftmost non-overlapping occurrences of a non-empty [old], front to
    back; [fuel] bounds the runes still to be read. *)
Fixpoint replaceFrom (fuel : nat) (s old new : gostring) : gostring :=
  match fuel with
  | O => s
  | S fuel' =>
    match s with
    | [] => []
    | c :: rest =>
      if HasPrefix s old
      then new ++ replaceFrom fuel' (skipn (length old) s) old new
      else c :: replaceFrom fuel' rest old new
    end
  end.

(** [strings.ReplaceAll].  An empty [old] matches before every rune and at
    the end. *)
Definition ReplaceAll (s old new : gostring) : gostring :=
  match old with
  | [] => new ++ flat_map (fun c => c :: new) s
  | _ :: _ => replaceFrom (length s) s old new
  end.

(** [unicode.IsSpace]. *)
Definition IsSpace (r : rune) : bool :=
  between 0x09 0x0D r || (r =? 0x20) || (r =? 0x85) || (r =? 0xA0)
  || (r =? 0x1680) || between 0x2000 0x200A r || (r =? 0x2028) || (r =? 0x2029)
  || (r =? 0x202F) || (r =? 0x205F) || (r =? 0x3000).

Fixpoint dropWhile (p : rune -> bool) (s : gostring) : gostring :=
  match s with
  | [] => []
  | c :: rest => if p c then dropWhile p rest else s
  end.

(** [strings.TrimSpace]: leading and trailing white space removed. *)
Definition TrimSpace (s : gostring) : gostring :=
  rev (dropWhile IsSpace (rev (dropWhile IsSpace s))).

(** [strings.Trim(s, cutset)]: leading and trailing runes of [cutset]
    removed (nothing, when [cutset] is empty). *)
Definition Trim (s cutset : gostring) : gostring :=
  let cut r := existsb (N.eqb r) cutset in
  rev (dropWhile cut (rev (dropWhile cut s))).

(** ** The [unicode] and [regexp] packages *)

(** [unicode.Kannada], the range table of the script (Unicode 15). *)
Definition Kannada (r : rune) : bool :=
  between 0x0C80 0x0C8C r || between 0x0C8E 0x0C90 r || between 0x0C92 0x0CA8 r
  || between 0x0CAA 0x0CB3 r || between 0x0CB5 0x0CB9 r || between 0x0CBC 0x0CC4 r
  || between 0x0CC6 0x0CC8 r || between 0x0CCA 0x0CCD r || between 0x0CD5 0x0CD6 r
  || between 0x0CDD 0x0CDE r || between 0x0CE0 0x0CE3 r || between 0x0CE6 0x0CEF r
  || between 0x0CF1 0x0CF3 r.

(** The Kannada block of the code charts, U+0C80..U+0CFF. *)
Definition KannadaBlock (r : rune) : bool := between 0x0C80 0x0CFF r.

(** [unicode.Scripts], as far as the program names scripts: the table has
    an entry [Kannada] and none called [Tulu]. *)
Definition Scripts : list (string * (rune -> bool)) := [("Kannada", Kannada)].

Fixpoint script (name : string) (l : list (string * (rune -> bool)))
  : option (rune -> bool) :=
  match l with
  | [] => None
  | (n, t) :: l' => if String.eqb n name then Some t else script name l'
  end.

(** The syntax of the patterns the program writes: a bracket expression
    and a pair of alternations of literals inside one group. *)
Inductive classItem :=
| Lit (r : rune)              (* [c] *)
| Range (lo hi : rune)        (* [lo-hi] *)
| NotScript (name : string).  (* [\P{name}] *)

Inductive pattern :=
| Class (negated : bool) (items : list classItem)   (* [[...]], [[^...]] *)
| GlyphMod (glyphs mods : list gostring).           (* [((g|...)(m|...))] *)

(** A compiled pattern. *)
Inductive Regexp :=
| ReClass (member : rune -> bool)
| ReGlyphMod (glyphs mods : list gostring).

Definition compileItem (i : classItem) : option (rune -> bool) :=
  match i with
  | Lit c => Some (N.eqb c)
  | Range lo hi => Some (between lo hi)
  | NotScript name =>
    match script name Scripts with
    | Some t => Some (fun r => negb (t r))
    | None => None
    end
  end.

Fixpoint compileItems (l : list classItem) : option (rune -> bool) :=
  match l with
  | [] => Some (fun _ => false)
  | i :: l' =>
    match compileItem i, compileItems l' with
    | Some p, Some q => Some (fun r => p r || q r)
    | _, _ => None
    end
  end.

(** [regexp.Compile]: the compiled pattern, or [None] for the error
    (an unknown script name is the one error these patterns can hit). *)
Definition Compile (p : pattern) : option Regexp :=
  match p with
  | Class negated items =>
    match compileItems items with
    | Some m => Some (ReClass (fun r => if negated then negb (m r) else m r))
    | None => None
    end
  | GlyphMod glyphs mods => Some (ReGlyphMod glyphs mods)
  end.

(** The alternatives of [alts] are tried in order; the first one that the
    rest of the pattern, [k], can follow is taken. *)
Fixpoint tryAlts {A} (alts : list gostring) (s : gostring)
         (k : gostring -> gostring -> option A) : option A :=
  match alts with
  | [] => None
  | a :: more =>
    match (if HasPrefix s a then k a (skipn (length a) s) else None) with
    | Some r => Some r
    | None => tryAlts more s k
    end
  end.

(** The match of [re] that starts at the front of [s], if there is one:
    the whole match followed by the text of each group, outermost first. *)
Definition matchAt (re : Regexp) (s : gostring) : option (list gostring) :=
  match re with
  | ReClass member =>
    match s with
    | c :: _ => if member c then Some [[c]] else None
    | [] => None
    end
  | ReGlyphMod glyphs mods =>
    tryAlts glyphs s (fun g rest =>
      tryAlts mods rest (fun m _ => Some [g ++ m; g ++ m; g; m]))
  end.

Definition matchLen (sub : list gostring) : nat := length (hd [] sub).

(** Successive matches, leftmost first and not overlapping.  Every
    alternative the program puts in a pattern is non-empty, so a match
    takes at least one rune. *)
Fixpoint findFrom (fuel : nat) (re : Regexp) (s : gostring) : list (list gostring) :=
  match fuel with
  | O => []
  | S fuel' =>
    match s with
    | [] => []
    | _ :: rest =>
      match matchAt re s with
      | Some sub => sub :: findFrom fuel' re (skipn (Nat.max 1 (matchLen sub)) s)
      | None => findFrom fuel' re rest
      end
    end
  end.

(** [re.FindAllStringSubmatch(s, -1)]. *)
Definition FindAllStringSubmatch (re : Regexp) (s : gostring) : list (list gostring) :=
  findFrom (length s) re s.

Fixpoint replaceMatches (fuel : nat) (re : Regexp) (s repl : gostring) : gostring :=
  match fuel with
  | O => s
  | S fuel' =>
    match s with
    | [] => []
    | c :: rest =>
      match matchAt re s with
      | Some sub => repl ++ replaceMatches fuel' re (skipn (Nat.max 1 (matchLen sub)) s) repl
      | None => c :: replaceMatches fuel' re rest repl
      end
    end
  end.

(** [re.ReplaceAllString(src, repl)], for a [repl] without [$]. *)
Definition ReplaceAllString (re : Regexp) (src repl : gostring) : gostring :=
  replaceMatches (length src) re src repl.

(** ** Panics *)

Inductive result (A : Type) :=
| Ok (a : A)
| Panic (msg : string).
Arguments Ok {A} a.
Arguments Panic {A} msg.

Definition bind {A B} (r : result A) (f : A -> result B) : result B :=
  match r with
  | Ok a => f a
  | Panic msg => Panic msg
  end.

Notation "x <- r ;; k" := (bind r (fun x => k))
  (at level 61, r at next level, right associativity).

(** ** The order of [range] over a map

    Go visits the entries of a map in an order it does not specify, and
    every [range] statement picks its own.  What is certain is that each
    entry is visited once: the order of a statement is a permutation of the
    map. *)

Record NewRanges := {
  newModifiers : table;
  newCompounds : table;
  newConsonants : table;
  newVowels : table;
  newModifiers_perm : Permutation modifiers newModifiers;
  newCompounds_perm : Permutation compounds newCompounds;
  newConsonants_perm : Permutation consonants newConsonants;
  newVowels_perm : Permutation vowels newVowels
}.

Record CallRanges := {
  rangeCompounds : table;
  rangeConsonants : table;
  rangeVowels : table;
  rangeModifiers : table;
  rangeCompounds_perm : Permutation compounds rangeCompounds;
  rangeConsonants_perm : Permutation consonants rangeConsonants;
  rangeVowels_perm : Permutation vowels rangeVowels;
  rangeModifiers_perm : Permutation modifiers rangeModifiers
}.

(** The maps visited in the order they are written. *)
Definition asWritten : NewRanges :=
  {| newModifiers_perm := Permutation_refl _;
     newCompounds_perm := Permutation_refl _;
     newConsonants_perm := Permutation_refl _;
     newVowels_perm := Permutation_refl _ |}.

Definition asWrittenCall : CallRanges :=
  {| rangeCompounds_perm := Permutation_refl _;
     rangeConsonants_perm := Permutation_refl _;
     rangeVowels_perm := Permutation_refl _;
     rangeModifiers_perm := Permutation_refl _ |}.

(** ** tlphone.go *)

Definition chr (a : ascii) : rune := N_of_ascii a.

(** The four package-level patterns, [[1,2,4-9]], [[2,4-9]],
    [[\P{Kannada}]] and [[^0-9A-Z]]. *)
Definition patKey0 : pattern :=
  Class false [Lit (chr "1"); Lit (chr ","); Lit (chr "2"); Lit (chr ","); Range (chr "4") (chr "9")].
Definition patKey1 : pattern :=
  Class false [Lit (chr "2"); Lit (chr ","); Range (chr "4") (chr "9")].
Definition patNonTulu : pattern :=
  Class false [NotScript "Kannada"].
Definition patAlphaNum : pattern :=
  Class true [Range (chr "0") (chr "9"); Range (chr "A") (chr "Z")].

Record packageVars := {
  regexKey0 : Regexp;
  regexKey1 : Regexp;
  regexNonTulu : Regexp;
  regexAlphaNum : Regexp
}.

Record TLPhone := {
  modCompounds : Regexp;
  modConsonants : Regexp;
  modVowels : Regexp
}.

Definition replaceModifiedGlyphs (input : gostring) (glyphs : table) (r : Regexp) : gostring :=
  fold_left (fun input matches =>
    fold_left (fun input m =>
      match lookup glyphs m with
      | Some rep => ReplaceAll input m rep
      | None => input
      end) matches input)
    (FindAllStringSubmatch r input) input.

(** [`{` + cv + `}`] *)
Definition braced (cv : gostring) : gostring := runes "{" ++ cv ++ runes "}".

(** [for ck, cv := range m { input = strings.ReplaceAll(input, ck, `{`+cv+`}`) }],
    the entries visited in the order [visit]. *)
Definition replaceGrouped (visit : table) (input : gostring) : gostring :=
  fold_left (fun input e => ReplaceAll input (fst e) (braced (snd e))) visit input.

(** [for mk, mv := range m { input = strings.ReplaceAll(input, mk, mv) }] *)
Definition replacePlain (visit : table) (input : gostring) : gostring :=
  fold_left (fun input e => ReplaceAll input (fst e) (snd e)) visit input.

Definition process (g : packageVars) (k : TLPhone) (cr : CallRanges) (input : gostring)
  : gostring :=
  let input := ReplaceAllString (regexNonTulu g) (TrimSpace input) [] in
  let input := replaceModifiedGlyphs input compounds (modCompounds k) in
  let input := replaceGrouped (rangeCompounds cr) input in
  let input := replaceModifiedGlyphs input consonants (modConsonants k) in
  let input := replaceModifiedGlyphs input vowels (modVowels k) in
  let input := replaceGrouped (rangeConsonants cr) input in
  let input := replaceGrouped (rangeVowels cr) input in
  let input := replacePlain (rangeModifiers cr) input in
  ReplaceAllString (regexAlphaNum g) input [].

Definition Encode (g : packageVars) (k : TLPhone) (cr : CallRanges) (input : gostring)
  : gostring * gostring * gostring :=
  let key2 := process g k cr input in
  let key1 := ReplaceAllString (regexKey1 g) key2 [] in
  let key0 := ReplaceAllString (regexKey0 g) key2 [] in
  (key0, key1, key2).

Section Startup.

(** [regexp.Compile], whatever it accepts. *)
Variable compile : pattern -> option Regexp.

Definition MustCompile (p : pattern) : result Regexp :=
  match compile p with
  | Some re => Ok re
  | None => Panic "regexp: Compile: error parsing regexp"
  end.

(** The package-level [var] block. *)
Definition initVars : result packageVars :=
  k0 <- MustCompile patKey0 ;;
  k1 <- MustCompile patKey1 ;;
  nt <- MustCompile patNonTulu ;;
  an <- MustCompile patAlphaNum ;;
  Ok {| regexKey0 := k0; regexKey1 := k1; regexNonTulu := nt; regexAlphaNum := an |}.

Definition New (nr : NewRanges) : result TLPhone :=
  let mods := keysOf (newModifiers nr) in
  let glyphs := keysOf (newCompounds nr) in
  mc <- MustCompile (GlyphMod glyphs mods) ;;
  let glyphs := keysOf (newConsonants nr) in
  mk <- MustCompile (GlyphMod glyphs mods) ;;
  let glyphs := keysOf (newVowels nr) in
  mv <- MustCompile (GlyphMod glyphs mods) ;;
  Ok {| modCompounds := mc; modConsonants := mk; modVowels := mv |}.

(** A program that uses the package: the package is initialised, an
    encoder is made and one word is encoded. *)
Definition NewEncode (nr : NewRanges) (cr : CallRanges) (input : gostring)
  : result (gostring * gostring * gostring) :=
  g <- initVars ;;
  k <- New nr ;;
  Ok (Encode g k cr input).

End Startup.

(** ** The second copy of the package

    It names the script [Tulu], trims with an empty cutset and calls
    [regexp.Compile], dropping the error: a pattern that does not compile
    leaves a nil [*Regexp] behind, and a method called on it panics. *)
Module SecondCopy.

Definition patNonTulu : pattern := Class false [NotScript "Tulu"].

Record packageVars := {
  regexKey0 : option Regexp;
  regexKey1 : option Regexp;
  regexNonTulu : option Regexp;
  regexAlphaNum : option Regexp
}.

Record tlphone := {
  modCompounds : option Regexp;
  modConsonants : option Regexp;
  modVowels : option Regexp
}.

Definition deref (r : option Regexp) : result Regexp :=
  match r with
  | Some re => Ok re
  | None => Panic "invalid memory address or nil pointer dereference"
  end.

Definition replaceModifiedGlyphs (input : gostring) (glyphs : table) (r : option Regexp)
  : result gostring :=
  re <- deref r ;;
  Ok (fold_left (fun input matches =>
        fold_left (fun input m =>
          match lookup glyphs m with
          | Some rep => ReplaceAll input m rep
          | None => input
          end) matches input)
        (FindAllStringSubmatch re input) input).

Definition process (g : packageVars) (k : tlphone) (cr : CallRanges) (input : gostring)
  : result gostring :=
  nt <- deref (regexNonTulu g) ;;
  let input := ReplaceAllString nt (Trim input []) [] in
  input <- replaceModifiedGlyphs input compounds (modCompounds k) ;;
  let input := replaceGrouped (rangeCompounds cr) input in
  input <- replaceModifiedGlyphs input consonants (modConsonants k) ;;
  input <- replaceModifiedGlyphs input vowels (modVowels k) ;;
  let input := replaceGrouped (rangeConsonants cr) input in
  let input := replaceGrouped (rangeVowels cr) input in
  let input := replacePlain (rangeModifiers cr) input in
  an <- deref (regexAlphaNum g) ;;
  Ok (ReplaceAllString an input []).

Definition Encode (g : packageVars) (k : tlphone) (cr : CallRanges) (input : gostring)
  : result (gostring * gostring * gostring) :=
  key2 <- process g k cr input ;;
  k1 <- deref (regexKey1 g) ;;
  let key1 := ReplaceAllString k1 key2 [] in
  k0 <- deref (regexKey0 g) ;;
  let key0 := ReplaceAllString k0 key2 [] in
  Ok (key0, key1, key2).

Section Startup.

Variable compile : pattern -> option Regexp.

(** [regexKey0, _ = regexp.Compile(...)] and the like: no error is
    looked at, so the block always completes. *)
Definition initVars : packageVars :=
  {| regexKey0 := compile patKey0;
     regexKey1 := compile patKey1;
     regexNonTulu := compile patNonTulu;
     regexAlphaNum := compile patAlphaNum |}.

Definition New (nr : NewRanges) : tlphone :=
  let mods := keysOf (newModifiers nr) in
  let glyphs := keysOf (newCompounds nr) in
  let mc := compile (GlyphMod glyphs mods) in
  let glyphs := keysOf (newConsonants nr) in
  let mk := compile (GlyphMod glyphs mods) in
  let glyphs := keysOf (newVowels nr) in
  let mv := compile (GlyphMod glyphs mods) in
  {| modCompounds := mc; modConsonants := mk; modVowels := mv |}.

Definition NewEncode (nr : NewRanges) (cr : CallRanges) (input : gostring)
  : result (gostring * gostring * gostring) :=
  Encode initVars (New nr) cr input.

End Startup.

End SecondCopy.

(** ** With Go's [regexp.Compile] *)

Definition compiled (p : pattern) : Regexp :=
  match Compile p with
  | Some re => re
  | None => ReClass (fun _ => false)
  end.

(** The package-level variables and the encoder that startup leaves. *)
Definition pkg : packageVars :=
  {| regexKey0 := compiled patKey0;
     regexKey1 := compiled patKey1;
     regexNonTulu := compiled patNonTulu;
     regexAlphaNum := compiled patAlphaNum |}.

Definition encoder (nr : NewRanges) : TLPhone :=
  {| modCompounds := ReGlyphMod (keysOf (newCompounds nr)) (keysOf (newModifiers nr));
     modConsonants := ReGlyphMod (keysOf (newConsonants nr)) (keysOf (newModifiers nr));
     modVowels := ReGlyphMod (keysOf (newVowels nr)) (keysOf (newModifiers nr)) |}.

(** The character classes of the four package-level patterns. *)
Definition isDigit (r : rune) : bool := between (chr "0") (chr "9") r.
Definition isUpper (r : rune) : bool := between (chr "A") (chr "Z") r.
Definition isAlphaNum (r : rune) : bool := isDigit r || isUpper r.

(** Membership in a set of characters written as a string. *)
Definition oneOf (set : string) (r : rune) : bool := existsb (N.eqb r) (runes set).

(** [s] with every rune of [set] removed. *)
Definition without (set : string) (s : gostring) : gostring :=
  filter (fun r => negb (oneOf set r)) s.

(** One string is obtained from another by deleting runes. *)
Inductive Subsequence : gostring -> gostring -> Prop :=
| sub_nil : Subsequence [] []
| sub_keep c s t : Subsequence s t -> Subsequence (c :: s) (c :: t)
| sub_drop c s t : Subsequence s t -> Subsequence s (c :: t).

(** ** Notions used in the statements and in their proofs *)

(** The runes ['0'] of a key, in order. *)
Definition zeros (s : gostring) : gostring := filter (N.eqb (chr "0")) s.

(** The digits of a key, and its runes ['3'], in order. *)
Definition digits (s : gostring) : gostring := filter isDigit s.
Definition threes (s : gostring) : gostring := filter (N.eqb (chr "3")) s.

Definition nonEmptyKeys (t : table) : Prop := Forall (fun e => fst e <> []) t.

Definition nonEmptyKeysb (t : table) : bool :=
  forallb (fun e => negb (eqRunes (fst e) [])) t.

(** [strings.Contains]. *)
Fixpoint Contains (s substr : gostring) : bool :=
  HasPrefix s substr
  || match s with
     | [] => false
     | _ :: rest => Contains rest substr
     end.

(** No rune of [new] is a rune of [k]. *)
Definition apart (k new : gostring) : Prop := forall r, In r k -> In r new -> False.

Definition isASCII (r : rune) : bool := r <? 0x80.

(** A key is a non-empty run of runes beyond ASCII, a code is ASCII. *)
Definition wellFormedEntry (e : gostring * gostring) : bool :=
  negb (eqRunes (fst e) [])
  && forallb (fun r => negb (isASCII r)) (fst e)
  && forallb isASCII (snd e).

Definition singleRuneKey (e : gostring * gostring) : bool :=
  match fst e with
  | [_] => true
  | _ => false
  end.

Fixpoint distinct (keys : list gostring) : bool :=
  match keys with
  | [] => true
  | k :: more => negb (existsb (eqRunes k) more) && distinct more
  end.

(** Both loops of [process], [wrapper] being [braced] or nothing. *)
Definition replaceEach (wrapper : gostring -> gostring) (visit : table) (input : gostring)
  : gostring :=
  fold_left (fun input e => ReplaceAll input (fst e) (wrapper (snd e))) visit input.

(** Every rune that is a key is replaced by its code, all at once. *)
Definition substRune (wrapper : gostring -> gostring) (t : table) (c : rune) : gostring :=
  match lookup t [c] with
  | Some v => wrapper v
  | None => [c]
  end.

Definition substAll (wrapper : gostring -> gostring) (t : table) (s : gostring) : gostring :=
  flat_map (substRune wrapper t) s.

(** No alternative is a proper prefix of another. *)
Definition prefixFree (alts : list gostring) : bool :=
  forallb (fun a => forallb (fun b => implb (HasPrefix a b) (eqRunes a b)) alts) alts.

(** The working string after the script filter and the pass over
    compounds followed by a modifier. *)
Definition afterModifiedCompounds (input : gostring) : gostring :=
  replaceModifiedGlyphs (filter Kannada (TrimSpace input)) compounds
                        (modCompounds (encoder asWritten)).

(** At most one key of [t] occurs in [w]. *)
Definition oneKey (t : table) (w : gostring) : bool :=
  existsb (fun e =>
    forallb (fun e' => eqRunes (fst e') (fst e) || negb (Contains w (fst e'))) t) t.

(** At most one compound key occurs in [w]. *)
Definition oneCompound (w : gostring) : bool := oneKey compounds w.

(** The table of [TestEncode]: a word and the keys expected for it. *)
Definition vectors : list (string * (string * string * string)) :=
  [("ತುಂಬಾ", ("03B", "03B", "053B"));
   ("ಮಕ್ಕಳು", ("MKL", "MKL1", "MK2L15"));
   ("ಬಂಗಾರಾ", ("B3KR", "B3KR", "B3KR"));
   ("ಅನುಗ್ರಹ", ("ANKRH", "ANKRH", "AN5KRH"));
   ("ವೃತ್ತಿ", ("VR0", "VR0", "VR04"));
   ("ಅಧ್ಯಕ್ಷ", ("A0YKS", "A0YKS1", "A0YKS1"))].

Definition expected (want : string * string * string)
  : result (gostring * gostring * gostring) :=
  let '(k0, k1, k2) := want in Ok (runes k0, runes k1, runes k2).

(** [process] up to the loop over [compounds], and from there on. *)
Definition compoundPasses (g : packageVars) (k : TLPhone) (cr : CallRanges)
           (input : gostring) : gostring :=
  let input := ReplaceAllString (regexNonTulu g) (TrimSpace input) [] in
  let input := replaceModifiedGlyphs input compounds (modCompounds k) in
  replaceGrouped (rangeCompounds cr) input.

Definition laterPasses (g : packageVars) (k : TLPhone) (cr : CallRanges)
           (input : gostring) : gostring :=
  let input := replaceModifiedGlyphs input consonants (modConsonants k) in
  let input := replaceModifiedGlyphs input vowels (modVowels k) in
  let input := replaceGrouped (rangeConsonants cr) input in
  let input := replaceGrouped (rangeVowels cr) input in
  let input := replacePlain (rangeModifiers cr) input in
  ReplaceAllString (regexAlphaNum g) input [].

(** A compound on its own, and a compound followed by a consonant. *)
Definition compoundAlone (e : gostring * gostring) : bool :=
  oneCompound (afterModifiedCompounds (fst e))
  && eqRunes (process pkg (encoder asWritten) asWrittenCall (fst e)) (snd e).

Definition compoundThen (e c : gostring * gostring) : bool :=
  oneCompound (afterModifiedCompounds (fst e ++ fst c))
  && eqRunes (process pkg (encoder asWritten) asWrittenCall (fst e ++ fst c))
             (snd e ++ snd c).

Definition packagePatterns : list pattern := [patKey0; patKey1; patNonTulu; patAlphaNum].

Definition newPatterns (nr : NewRanges) : list pattern :=
  [GlyphMod (keysOf (newCompounds nr)) (keysOf (newModifiers nr));
   GlyphMod (keysOf (newConsonants nr)) (keysOf (newModifiers nr));
   GlyphMod (keysOf (newVowels nr)) (keysOf (newModifiers nr))].

(** A [regexp.Compile] whose Unicode tables lack the script Kannada: for
    it the pattern [[\P{Kannada}]] is an error. *)
Definition compileWithoutKannada (p : pattern) : option Regexp :=
  match p with
  | Class _ [NotScript "Kannada"] => None
  | _ => Compile p
  end.

(** A rune that is a key of [modifiers]. *)
Definition isModifier (r : rune) : bool :=
  existsb (fun e => eqRunes (fst e) [r]) modifiers.

Definition startsWithModifier (s : gostring) : bool :=
  match s with
  | c :: _ => isModifier c
  | [] => false
  end.

(** The non-empty suffixes of a key. *)
Fixpoint suffixes (k : gostring) : list gostring :=
  match k with
  | [] => []
  | _ :: rest => k :: suffixes rest
  end.

(** [g] starts nowhere inside [k], unless what follows [k] begins with a
    modifier. *)
Definition noOverlap (k g : gostring) : bool :=
  forallb (fun t =>
    negb (HasPrefix t g)
    && (negb (HasPrefix g t) || startsWithModifier (skipn (length t) g)))
    (suffixes k).

(** Two different compound keys overlap only across a modifier. *)
Definition compoundsApart : bool :=
  forallb (fun k => forallb (fun g => eqRunes g k || noOverlap k g) (keysOf compounds))
          (keysOf compounds).

(** The replacements of [replaceModifiedGlyphs], for the matches [found]. *)
Definition applyMatches (glyphs : table) (found : list (list gostring)) (input : gostring)
  : gostring :=
  fold_left (fun input matches =>
    fold_left (fun input m =>
      match lookup glyphs m with
      | Some rep => ReplaceAll input m rep
      | None => input
      end) matches input)
    found input.

(** The word still begins with the compound [k], with no modifier after
    it, or already with the code [v] of [k]. *)
Definition leading (k v cur : gostring) : Prop :=
  HasPrefix cur v = true
  \/ HasPrefix cur (braced v) = true
  \/ (HasPrefix cur k = true /\ startsWithModifier (skipn (length k) cur) = false).

(** The word begins with the code of a compound, bare or between braces. *)
Definition coded (v cur : gostring) : Prop :=
  HasPrefix cur v = true \/ HasPrefix cur (braced v) = true.

(** Shape of [compounds] beyond [wellFormedEntry]: codes are non-empty and
    alphanumeric, keys are Kannada, and neither a modifier nor a compound
    followed by a modifier is a compound key. *)
Definition compoundsShape : bool :=
  forallb (fun e =>
    negb (eqRunes (snd e) []) && forallb isAlphaNum (snd e) && forallb Kannada (fst e)
    && forallb (fun m =>
         match lookup compounds (fst e ++ m), lookup compounds m with
         | None, None => true
         | _, _ => false
         end) (keysOf modifiers))
    compounds.



(** What a rune can still add to the length of a key: a Kannada rune up
    to two characters, a letter or digit one, a brace none. *)
Definition cost (r : rune) : nat :=
  if isAlphaNum r then 1%nat else if isASCII r then 0%nat else 2%nat.

Definition weight (s : gostring) : nat := list_sum (map cost s).

(** No replacement of the table weighs more than its key. *)
Definition lighter (wrapper : gostring -> gostring) (t : table) : bool :=
  forallb (fun e => Nat.leb (weight (wrapper (snd e))) (weight (fst e))) t.

(** The code of a rune: that of the consonant, vowel or modifier it is,
    and nothing for any other rune. *)
Definition codeOf (c : rune) : gostring :=
  match lookup consonants [c] with
  | Some v => v
  | None =>
    match lookup vowels [c] with
    | Some v => v
    | None =>
      match lookup modifiers [c] with
      | Some v => v
      | None => []
      end
    end
  end.

(** A word spelled out rune by rune. *)
Definition transliterate (s : gostring) : gostring := flat_map codeOf s.

(** No compound key occurs in [s]. *)
Definition noCompound (s : gostring) : bool :=
  forallb (fun e => negb (Contains s (fst e))) compounds.

(** What the last three loops and the final filter make of one rune. *)
Definition eventuallyIn (tk tv tm : table) (c : rune) : gostring :=
  filter isAlphaNum
    (substAll (fun v => v) tm (substAll braced tv (substRune braced tk c))).

Definition eventually : rune -> gostring := eventuallyIn consonants vowels modifiers.

(** The replacements of the table are worth what their keys are. *)
Definition sameEventually (t : table) : bool :=
  forallb (fun e =>
    match fst e with
    | [a] => eqRunes (flat_map eventually (snd e)) (eventually a)
    | _ => false
    end) t.

Definition codesAlphaNum (t : table) : bool :=
  forallb (fun e => forallb isAlphaNum (snd e)) t.

(** The vowel signs, the visarga and the virama: the modifiers that leave
    no trace in [key1] and [key0]. *)
Definition silentSigns : gostring := runes "ಾಃ್ಿೀುೂೆೇೈೊೋೌ".

Definition withoutSigns (s : gostring) : gostring :=
  filter (fun r => negb (existsb (N.eqb r) silentSigns)) s.

(** One step of [replaceModifiedGlyphs]: the submatch [m] is replaced if
    it is a key of the table. *)
Definition replaceIfGlyph (glyphs : table) (input m : gostring) : gostring :=
  match lookup glyphs m with
  | Some rep => ReplaceAll input m rep
  | None => input
  end.

(** The three tables handed to [replaceModifiedGlyphs]. *)
Definition glyphTables : list table := [compounds; consonants; vowels].

Definition codesNonEmpty (t : table) : bool :=
  forallb (fun e => negb (eqRunes (snd e) [])) t.

(** The patterns the second copy compiles. *)
Definition secondCopyPatterns (nr : NewRanges) : list pattern :=
  [patKey0; patKey1; SecondCopy.patNonTulu; patAlphaNum] ++ newPatterns nr.

(** A [regexp.Compile] for which the script name Tulu stands for the
    Kannada table. *)
Definition compileTuluAsKannada (p : pattern) : option Regexp :=
  match p with
  | Class false [NotScript "Tulu"] => Compile patNonTulu
  | _ => Compile p
  end.

(** Every map visited from its last entry to its first. *)
Definition backwards : NewRanges :=
  {| newModifiers_perm := Permutation_rev modifiers;
     newCompounds_perm := Permutation_rev compounds;
     newConsonants_perm := Permutation_rev consonants;
     newVowels_perm := Permutation_rev vowels |}.

Definition backwardsCall : CallRanges :=
  {| rangeCompounds_perm := Permutation_rev compounds;
     rangeConsonants_perm := Permutation_rev consonants;
     rangeVowels_perm := Permutation_rev vowels;
     rangeModifiers_perm := Permutation_rev modifiers |}.

(** The characters of the codes of the four tables. *)
Definition codeRunes : gostring :=
  flat_map snd (vowels ++ consonants ++ compounds ++ modifiers).

Definition inCodes (r : rune) : bool := existsb (N.eqb r) codeRunes.

(** A rune of the working string: a character of a code, or something the
    final filter drops. *)
Definition fromCodes (r : rune) : bool := inCodes r || negb (isAlphaNum r).

Definition codesFromCodes (wrapper : gostring -> gostring) (t : table) : bool :=
  forallb (fun e => forallb fromCodes (wrapper (snd e))) t.

(** The entry of [t] whose key begins [s], if there is one. *)
Definition glyphAt (t : table) (s : gostring) : option (gostring * gostring) :=
  find (fun e => HasPrefix s (fst e)) t.

(** [s] read from the left: where a key of [t] begins, the code of that
    key, and the reading goes on after the key; elsewhere what [single]
    makes of the rune. *)
Fixpoint readFrom (t : table) (single : rune -> gostring) (fuel : nat) (s : gostring)
  : gostring :=
  match fuel with
  | O => []
  | S fuel =>
    match s with
    | [] => []
    | c :: rest =>
      match glyphAt t s with
      | Some e => snd e ++ readFrom t single fuel (skipn (length (fst e)) s)
      | None => single c ++ readFrom t single fuel rest
      end
    end
  end.

Definition readWith (t : table) (single : rune -> gostring) (s : gostring) : gostring :=
  readFrom t single (length s) s.

(** A word spelled out glyph by glyph: the code of each compound glyph,
    and the code of each rune outside the compound glyphs. *)
Definition spell (s : gostring) : gostring := readWith compounds codeOf s.

(** No key of [t] begins inside the key that begins [s]. *)
Definition apartAt (t : table) (s : gostring) : bool :=
  match glyphAt t s with
  | Some e =>
    forallb (fun u =>
      match glyphAt t (u ++ skipn (length (fst e)) s) with
      | Some _ => false
      | None => true
      end) (suffixes (tl (fst e)))
  | None => true
  end.

(** No two occurrences of keys of [t] in [s] overlap. *)
Fixpoint disjointIn (t : table) (s : gostring) : bool :=
  apartAt t s
  && match s with
     | [] => true
     | _ :: rest => disjointIn t rest
     end.

(** No two compound glyphs of the word overlap. *)
Definition disjointCompounds (s : gostring) : bool := disjointIn compounds s.

(** * Properties *)

(** ** The embedding at work *)

Example runes_ascii : runes "K2" = [75; 50].
Proof. reflexivity. Qed.

Example runes_kannada : runes "ತುಂಬಾ" = [0xCA4; 0xCC1; 0xC82; 0xCAC; 0xCBE].
Proof. reflexivity. Qed.

Example runes_invalid :
  decode 0 [0xE0; 0x20; 0xC0; 0x80; 0xED; 0xA0; 0x80]
  = [RuneError; 0x20; RuneError; RuneError; RuneError; RuneError; RuneError].
Proof. reflexivity. Qed.

Example ReplaceAll_overlap :
  ReplaceAll (runes "aaaa") (runes "aa") (runes "b") = runes "bb"
  /\ ReplaceAll (runes "aaa") (runes "aa") (runes "b") = runes "ba"
  /\ ReplaceAll (runes "ab") (runes "") (runes "-") = runes "-a-b-".
Proof. repeat split. Qed.

Example TrimSpace_ex :
  TrimSpace (runes "  ಕ ಕ  ") = runes "ಕ ಕ" /\ Trim (runes " ಕ ") [] = runes " ಕ ".
Proof. split; reflexivity. Qed.

Example vectorA_asWritten :
  NewEncode Compile asWritten asWrittenCall (runes "ತುಂಬಾ")
  = Ok (runes "03B", runes "03B", runes "053B").
Proof. vm_compute. reflexivity. Qed.

Example secondCopy_asWritten :
  SecondCopy.NewEncode Compile asWritten asWrittenCall (runes "ತುಂಬಾ")
  = Panic "invalid memory address or nil pointer dereference".
Proof. reflexivity. Qed.

(** ** Startup *)

Lemma initVars_Compile : initVars Compile = Ok pkg.
Proof. reflexivity. Qed.

Lemma New_Compile nr : New Compile nr = Ok (encoder nr).
Proof. reflexivity. Qed.

Lemma NewEncode_Compile nr cr input :
  NewEncode Compile nr cr input = Ok (Encode pkg (encoder nr) cr input).
Proof. reflexivity. Qed.

(** ** Character classes as filters *)

(** Equalities between comparisons of runes, by arithmetic. *)
Ltac bool_arith :=
  rewrite ?orb_false_r; apply eq_iff_eq_true;
  rewrite ?orb_true_iff, ?andb_true_iff, ?negb_true_iff, ?orb_false_iff,
    ?andb_false_iff, ?N.eqb_eq, ?N.eqb_neq, ?N.leb_le, ?N.leb_gt, ?N.ltb_lt, ?N.ltb_ge;
  lia.

Lemma replaceMatches_class p : forall fuel s,
  (length s <= fuel)%nat ->
  replaceMatches fuel (ReClass p) s [] = filter (fun r => negb (p r)) s.
Proof.
  induction fuel as [|fuel IH]; intros [|c rest] Hlen; simpl in *; try reflexivity; try lia.
  destruct (p c); simpl.
  - apply IH. lia.
  - f_equal. apply IH. lia.
Qed.

Lemma ReplaceAllString_class p s :
  ReplaceAllString (ReClass p) s [] = filter (fun r => negb (p r)) s.
Proof. unfold ReplaceAllString. apply replaceMatches_class. lia. Qed.

Lemma regexAlphaNum_filter s :
  ReplaceAllString (regexAlphaNum pkg) s [] = filter isAlphaNum s.
Proof.
  change (regexAlphaNum pkg)
    with (ReClass (fun r => negb (between (chr "0") (chr "9") r
                                  || (between (chr "A") (chr "Z") r || false)))).
  rewrite ReplaceAllString_class. apply filter_ext. intros r.
  unfold isAlphaNum, isDigit, isUpper. rewrite negb_involutive, orb_false_r. reflexivity.
Qed.

Lemma regexNonTulu_filter s :
  ReplaceAllString (regexNonTulu pkg) s [] = filter Kannada s.
Proof.
  change (regexNonTulu pkg) with (ReClass (fun r => negb (Kannada r) || false)).
  rewrite ReplaceAllString_class. apply filter_ext. intros r.
  rewrite orb_false_r, negb_involutive. reflexivity.
Qed.

Lemma regexKey1_filter s :
  ReplaceAllString (regexKey1 pkg) s [] = without "2,456789" s.
Proof.
  change (regexKey1 pkg)
    with (ReClass (fun r => N.eqb 50 r || (N.eqb 44 r || (between 52 57 r || false)))).
  rewrite ReplaceAllString_class. apply filter_ext. intros r. f_equal.
  change (oneOf "2,456789" r) with (existsb (N.eqb r) [50; 44; 52; 53; 54; 55; 56; 57]).
  cbn [existsb]. unfold between. bool_arith.
Qed.

Lemma regexKey0_filter s :
  ReplaceAllString (regexKey0 pkg) s [] = without "1,2456789" s.
Proof.
  change (regexKey0 pkg)
    with (ReClass (fun r => N.eqb 49 r || (N.eqb 44 r || (N.eqb 50 r
                             || (N.eqb 44 r || (between 52 57 r || false)))))).
  rewrite ReplaceAllString_class. apply filter_ext. intros r. f_equal.
  change (oneOf "1,2456789" r) with (existsb (N.eqb r) [49; 44; 50; 52; 53; 54; 55; 56; 57]).
  cbn [existsb]. unfold between. bool_arith.
Qed.

(** ** The three keys *)

Lemma Encode_keys k cr input :
  Encode pkg k cr input
  = (without "1,2456789" (process pkg k cr input),
     without "2,456789" (process pkg k cr input),
     process pkg k cr input).
Proof. unfold Encode. rewrite regexKey0_filter, regexKey1_filter. reflexivity. Qed.

Lemma process_alphanum k cr input :
  Forall (fun r => isAlphaNum r = true) (process pkg k cr input).
Proof.
  unfold process. rewrite regexAlphaNum_filter.
  apply Forall_forall. intros r Hr. apply filter_In in Hr. tauto.
Qed.

Lemma without_alphanum set s :
  Forall (fun r => isAlphaNum r = true) s ->
  Forall (fun r => isAlphaNum r = true) (without set s).
Proof.
  intros H. apply Forall_forall. intros r Hr. apply filter_In in Hr.
  rewrite Forall_forall in H. apply H. tauto.
Qed.

(** Two sets that hold the same letters and digits remove the same runes
    from a key. *)
Lemma without_ext set set' s :
  Forall (fun r => isAlphaNum r = true) s ->
  (forall r, isAlphaNum r = true -> oneOf set r = oneOf set' r) ->
  without set s = without set' s.
Proof.
  intros Hs Hset. rewrite Forall_forall in Hs.
  apply filter_ext_in. intros r Hr. rewrite (Hset r (Hs r Hr)). reflexivity.
Qed.

Lemma comma_key1 r : isAlphaNum r = true -> oneOf "2,456789" r = oneOf "2456789" r.
Proof.
  change (oneOf "2,456789" r) with (existsb (N.eqb r) [50; 44; 52; 53; 54; 55; 56; 57]).
  change (oneOf "2456789" r) with (existsb (N.eqb r) [50; 52; 53; 54; 55; 56; 57]).
  change (isAlphaNum r) with (between 48 57 r || between 65 90 r).
  cbn [existsb]. unfold between.
  rewrite orb_true_iff, !andb_true_iff, !N.leb_le. intros H. bool_arith.
Qed.

Lemma comma_key0 r : isAlphaNum r = true -> oneOf "1,2456789" r = oneOf "12456789" r.
Proof.
  change (oneOf "1,2456789" r) with (existsb (N.eqb r) [49; 44; 50; 52; 53; 54; 55; 56; 57]).
  change (oneOf "12456789" r) with (existsb (N.eqb r) [49; 50; 52; 53; 54; 55; 56; 57]).
  change (isAlphaNum r) with (between 48 57 r || between 65 90 r).
  cbn [existsb]. unfold between.
  rewrite orb_true_iff, !andb_true_iff, !N.leb_le. intros H. bool_arith.
Qed.

Lemma filter_Subsequence (p : rune -> bool) s : Subsequence (filter p s) s.
Proof.
  induction s as [|c s IH]; simpl.
  - constructor.
  - destruct (p c); constructor; exact IH.
Qed.

Lemma filter_filter_weaker (p q : rune -> bool) s :
  (forall r, p r = true -> q r = true) ->
  filter p (filter q s) = filter p s.
Proof.
  intros Hpq. induction s as [|c s IH]; simpl; [reflexivity|].
  destruct (q c) eqn:Hq; simpl.
  - destruct (p c); rewrite IH; reflexivity.
  - destruct (p c) eqn:Hp; [|exact IH].
    apply Hpq in Hp. congruence.
Qed.

Lemma oneOf_key1_key0 r : oneOf "2456789" r = true -> oneOf "12456789" r = true.
Proof.
  change (oneOf "2456789" r) with (existsb (N.eqb r) [50; 52; 53; 54; 55; 56; 57]).
  change (oneOf "12456789" r) with (existsb (N.eqb r) [49; 50; 52; 53; 54; 55; 56; 57]).
  cbn [existsb]. intros H. rewrite H. apply orb_true_r.
Qed.

(** What [Encode] returns, in terms of [key2] alone. *)
Lemma Encode_from_key2 k cr input :
  Encode pkg k cr input
  = (without "12456789" (process pkg k cr input),
     without "2456789" (process pkg k cr input),
     process pkg k cr input).
Proof.
  rewrite Encode_keys.
  rewrite (without_ext "1,2456789" "12456789"), (without_ext "2,456789" "2456789");
    auto using process_alphanum, comma_key0, comma_key1.
Qed.

(** The encoder of tlphone.go is total: startup completes, and every
    input gives three keys over [0-9A-Z]. *)
Theorem Encode_total nr cr input :
  exists key0 key1 key2,
    NewEncode Compile nr cr input = Ok (key0, key1, key2)
    /\ Forall (fun r => isAlphaNum r = true) key0
    /\ Forall (fun r => isAlphaNum r = true) key1
    /\ Forall (fun r => isAlphaNum r = true) key2.
Proof.
  rewrite NewEncode_Compile, Encode_from_key2.
  do 3 eexists. split; [reflexivity|].
  auto using without_alphanum, process_alphanum.
Qed.

(** C3: [key1] is [key2] without the digits 2, 4, 5, 6, 7, 8, 9 and [key0]
    is [key2] without the digits 1, 2, 4, 5, 6, 7, 8, 9; every other rune of
    [key2] stays, in place.  Both are filters of [key2], whatever the input
    was. *)
Theorem key_derivation nr cr input :
  exists key0 key1 key2,
    NewEncode Compile nr cr input = Ok (key0, key1, key2)
    /\ key1 = without "2456789" key2
    /\ key0 = without "12456789" key2.
Proof.
  rewrite NewEncode_Compile, Encode_from_key2.
  do 3 eexists. split; [reflexivity|]. split; reflexivity.
Qed.

(** C4: [key1] is a subsequence of [key2] and [key0] a subsequence of
    [key1], for every input. *)
Theorem monotonic_lossiness nr cr input :
  exists key0 key1 key2,
    NewEncode Compile nr cr input = Ok (key0, key1, key2)
    /\ Subsequence key1 key2
    /\ Subsequence key0 key1
    /\ Subsequence key0 key2.
Proof.
  rewrite NewEncode_Compile, Encode_from_key2.
  do 3 eexists. split; [reflexivity|].
  split; [apply filter_Subsequence|]. split; [|apply filter_Subsequence].
  unfold without.
  rewrite <- (filter_filter_weaker (fun r => negb (oneOf "12456789" r))
                                   (fun r => negb (oneOf "2456789" r))).
  - apply filter_Subsequence.
  - intros r H. destruct (oneOf "2456789" r) eqn:E; [|reflexivity].
    apply oneOf_key1_key0 in E. rewrite E in H. discriminate.
Qed.

Lemma zeros_without set s :
  oneOf set (chr "0") = false -> zeros (without set s) = zeros s.
Proof.
  intros H. unfold zeros, without. apply filter_filter_weaker.
  intros r Hr. apply N.eqb_eq in Hr. subst r. rewrite H. reflexivity.
Qed.

(** C7: the digit 0 is never stripped: the three keys hold the same
    occurrences of ['0']. *)
Theorem zero_stability nr cr input :
  exists key0 key1 key2,
    NewEncode Compile nr cr input = Ok (key0, key1, key2)
    /\ zeros key0 = zeros key2
    /\ zeros key1 = zeros key2
    /\ length (zeros key0) = length (zeros key2)
    /\ length (zeros key1) = length (zeros key2).
Proof.
  rewrite NewEncode_Compile, Encode_from_key2.
  do 3 eexists. split; [reflexivity|].
  rewrite !zeros_without by reflexivity. repeat split.
Qed.

Lemma threes_without set s :
  oneOf set (chr "3") = false -> threes (without set s) = threes s.
Proof.
  intros H. unfold threes, without. apply filter_filter_weaker.
  intros r Hr. apply N.eqb_eq in Hr. subst r. rewrite H. reflexivity.
Qed.

Lemma digits_without set allowed s :
  (forall r, isDigit r = true -> oneOf set r = false -> oneOf allowed r = true) ->
  Forall (fun r => oneOf allowed r = true) (digits (without set s)).
Proof.
  intros H. apply Forall_forall. intros r Hr.
  apply filter_In in Hr. destruct Hr as [Hr Hd].
  apply filter_In in Hr. destruct Hr as [_ Hr]. apply negb_true_iff in Hr. auto.
Qed.

(** C10: [key0] holds no digit but 0 and 3, and [key1] none but 0, 1
    and 3; the marker 3 of [key2] is kept, in place, by both. *)
Theorem surviving_digits nr cr input :
  exists key0 key1 key2,
    NewEncode Compile nr cr input = Ok (key0, key1, key2)
    /\ Forall (fun r => oneOf "03" r = true) (digits key0)
    /\ Forall (fun r => oneOf "013" r = true) (digits key1)
    /\ threes key0 = threes key2
    /\ threes key1 = threes key2.
Proof.
  rewrite NewEncode_Compile, Encode_from_key2.
  do 3 eexists. split; [reflexivity|].
  rewrite !threes_without by reflexivity.
  split; [|split; [|split; reflexivity]]; apply digits_without; intros r.
  - change (isDigit r) with (between 48 57 r).
    change (oneOf "12456789" r) with (existsb (N.eqb r) [49; 50; 52; 53; 54; 55; 56; 57]).
    change (oneOf "03" r) with (existsb (N.eqb r) [48; 51]).
    cbn [existsb]. unfold between.
    rewrite ?orb_false_r, ?orb_false_iff, ?orb_true_iff, ?andb_true_iff, ?N.eqb_eq,
      ?N.eqb_neq, ?N.leb_le. lia.
  - change (isDigit r) with (between 48 57 r).
    change (oneOf "2456789" r) with (existsb (N.eqb r) [50; 52; 53; 54; 55; 56; 57]).
    change (oneOf "013" r) with (existsb (N.eqb r) [48; 49; 51]).
    cbn [existsb]. unfold between.
    rewrite ?orb_false_r, ?orb_false_iff, ?orb_true_iff, ?andb_true_iff, ?N.eqb_eq,
      ?N.eqb_neq, ?N.leb_le. lia.
Qed.

(** ** Input without Kannada *)

Lemma Kannada_in_block r : Kannada r = true -> KannadaBlock r = true.
Proof.
  unfold Kannada, KannadaBlock, between.
  rewrite ?orb_true_iff, ?andb_true_iff, ?N.leb_le. lia.
Qed.

Lemma dropWhile_Forall (P : rune -> Prop) p s : Forall P s -> Forall P (dropWhile p s).
Proof.
  induction 1 as [|c s Hc Hs IH]; simpl; [constructor|].
  destruct (p c); [exact IH | constructor; assumption].
Qed.

Lemma TrimSpace_Forall (P : rune -> Prop) s : Forall P s -> Forall P (TrimSpace s).
Proof.
  intros H. unfold TrimSpace.
  apply Forall_rev, dropWhile_Forall, Forall_rev, dropWhile_Forall, H.
Qed.

Lemma filter_none (p : rune -> bool) s : Forall (fun r => p r = false) s -> filter p s = [].
Proof.
  induction 1 as [|c s Hc Hs IH]; simpl; [reflexivity|]. rewrite Hc. exact IH.
Qed.

Lemma replaceModifiedGlyphs_nil glyphs re : replaceModifiedGlyphs [] glyphs re = [].
Proof. reflexivity. Qed.

Lemma ReplaceAll_nil old new : old <> [] -> ReplaceAll [] old new = [].
Proof. destruct old; [congruence | reflexivity]. Qed.

Lemma replaceGrouped_nil visit : nonEmptyKeys visit -> replaceGrouped visit [] = [].
Proof.
  unfold replaceGrouped. induction 1 as [|e t He Ht IH]; simpl; [reflexivity|].
  rewrite ReplaceAll_nil by exact He. exact IH.
Qed.

Lemma replacePlain_nil visit : nonEmptyKeys visit -> replacePlain visit [] = [].
Proof.
  unfold replacePlain. induction 1 as [|e t He Ht IH]; simpl; [reflexivity|].
  rewrite ReplaceAll_nil by exact He. exact IH.
Qed.

Lemma nonEmptyKeysb_sound t t' :
  nonEmptyKeysb t = true -> Permutation t t' -> nonEmptyKeys t'.
Proof.
  intros H HP. apply Forall_forall. intros e He.
  apply Permutation_sym in HP. apply (Permutation_in _ HP) in He.
  unfold nonEmptyKeysb in H. rewrite forallb_forall in H. specialize (H e He).
  destruct e as [[|c k] v]; simpl in *; [discriminate | congruence].
Qed.

Lemma process_nil nr cr : process pkg (encoder nr) cr [] = [].
Proof.
  unfold process. rewrite regexNonTulu_filter. cbn [TrimSpace dropWhile rev filter app].
  rewrite replaceModifiedGlyphs_nil.
  rewrite replaceGrouped_nil
    by (apply (nonEmptyKeysb_sound compounds); [reflexivity | apply rangeCompounds_perm]).
  rewrite !replaceModifiedGlyphs_nil.
  rewrite replaceGrouped_nil
    by (apply (nonEmptyKeysb_sound consonants); [reflexivity | apply rangeConsonants_perm]).
  rewrite replaceGrouped_nil
    by (apply (nonEmptyKeysb_sound vowels); [reflexivity | apply rangeVowels_perm]).
  rewrite replacePlain_nil
    by (apply (nonEmptyKeysb_sound modifiers); [reflexivity | apply rangeModifiers_perm]).
  reflexivity.
Qed.

(** Only what is left by the script filter matters. *)
Lemma process_filtered k cr input :
  process pkg k cr input = process pkg k cr (filter Kannada (TrimSpace input)).
Proof.
  unfold process. rewrite !regexNonTulu_filter.
  assert (H : forall s, Forall (fun r => Kannada r = true) s -> filter Kannada (TrimSpace s) = s).
  { intros s Hs. assert (HT : TrimSpace s = s).
    { unfold TrimSpace.
      assert (D : forall t, Forall (fun r => Kannada r = true) t -> dropWhile IsSpace t = t).
      { intros t Ht. destruct Ht as [|c t Hc Ht]; [reflexivity|]. simpl.
        replace (IsSpace c) with false; [reflexivity|].
        revert Hc. unfold Kannada, IsSpace, between. intros Hc. symmetry.
        rewrite ?orb_true_iff, ?andb_true_iff, ?N.leb_le in Hc.
        rewrite ?orb_false_iff, ?andb_false_iff, ?N.eqb_neq, ?N.leb_gt. lia. }
      rewrite (D s Hs), D by (apply Forall_rev; exact Hs). apply rev_involutive. }
    rewrite HT. clear HT. induction Hs as [|c s Hc Hs IH]; simpl; [reflexivity|].
    rewrite Hc, IH. reflexivity. }
  rewrite (H (filter Kannada (TrimSpace input))); [reflexivity|].
  apply Forall_forall. intros r Hr. apply filter_In in Hr. tauto.
Qed.

(** C6: an input that is empty, or that holds no character of the Kannada
    block, gives three empty keys. *)
Theorem no_script_no_keys nr cr input :
  Forall (fun r => KannadaBlock r = false) input ->
  NewEncode Compile nr cr input = Ok ([], [], []).
Proof.
  intros H. rewrite NewEncode_Compile, Encode_from_key2, process_filtered.
  rewrite filter_none, process_nil; [reflexivity|].
  apply TrimSpace_Forall. revert H. apply Forall_impl. intros r Hr.
  destruct (Kannada r) eqn:E; [|reflexivity].
  apply Kannada_in_block in E. congruence.
Qed.

Lemma no_script_no_keys_witness :
  NewEncode Compile asWritten asWrittenCall (runes " Tulu, 2025! ") = Ok ([], [], [])
  /\ NewEncode Compile asWritten asWrittenCall (runes "") = Ok ([], [], []).
Proof.
  split; apply no_script_no_keys.
  - repeat constructor.
  - constructor.
Defined.

(** ** Occurrences of a key and [ReplaceAll] *)

Lemma eqRunes_eq a : forall b, eqRunes a b = true <-> a = b.
Proof.
  induction a as [|x a IH]; intros [|y b]; simpl; split; try congruence; try discriminate.
  - rewrite andb_true_iff, N.eqb_eq, IH. intros [-> ->]. reflexivity.
  - intros E. injection E as -> ->. rewrite N.eqb_refl. simpl. apply IH. reflexivity.
Qed.

Lemma HasPrefix_nil_r s : HasPrefix s [] = true.
Proof. destruct s; reflexivity. Qed.

Lemma HasPrefix_nil_l k : k <> [] -> HasPrefix [] k = false.
Proof. destruct k; [congruence | reflexivity]. Qed.

(** Two prefixes of one string: one is a prefix of the other. *)
Lemma HasPrefix_both a : forall s b,
  HasPrefix s a = true -> HasPrefix s b = true ->
  HasPrefix a b = true \/ HasPrefix b a = true.
Proof.
  induction a as [|x a IH]; intros s b Ha Hb.
  - right. apply HasPrefix_nil_r.
  - destruct b as [|y b]; [left; reflexivity|].
    destruct s as [|c s]; [discriminate|]. simpl in *.
    apply andb_true_iff in Ha. destruct Ha as [Hx Ha].
    apply andb_true_iff in Hb. destruct Hb as [Hy Hb].
    apply N.eqb_eq in Hx, Hy. subst x y. rewrite N.eqb_refl. simpl.
    eapply IH; eassumption.
Qed.

Lemma Contains_cons c s k :
  Contains (c :: s) k = HasPrefix (c :: s) k || Contains s k.
Proof. reflexivity. Qed.

Lemma Contains_skipn k n : forall s, Contains (skipn n s) k = true -> Contains s k = true.
Proof.
  induction n as [|n IH]; intros s H; [exact H|].
  destruct s as [|c s]; [exact H|].
  rewrite Contains_cons. apply orb_true_iff. right. apply IH. exact H.
Qed.

Lemma Contains_app_apart k new s :
  k <> [] -> apart k new -> Contains (new ++ s) k = Contains s k.
Proof.
  intros Hk Hsep. induction new as [|n new IH]; [reflexivity|].
  simpl app. rewrite Contains_cons, IH.
  - destruct k as [|p k]; [congruence|]. simpl.
    destruct (N.eqb_spec n p) as [->|]; [|reflexivity].
    exfalso. apply (Hsep p); left; reflexivity.
  - intros r Hr Hn. apply (Hsep r Hr). right. exact Hn.
Qed.

Lemma ReplaceAll_unfold s old new :
  old <> [] -> ReplaceAll s old new = replaceFrom (length s) s old new.
Proof. destruct old; [congruence | reflexivity]. Qed.

Lemma skipn_key_shorter (old : gostring) (c : rune) (s : gostring) :
  old <> [] -> (length (skipn (length old) (c :: s)) <= length s)%nat.
Proof.
  destruct old as [|o old']; [congruence|]. intros _. simpl. rewrite length_skipn. lia.
Qed.

Section Replace.

Variables old new : gostring.
Hypothesis old_nonempty : old <> [].

(** Enough fuel: more changes nothing. *)
Lemma replaceFrom_enough : forall fuel fuel' s,
  (length s <= fuel)%nat -> (length s <= fuel')%nat ->
  replaceFrom fuel s old new = replaceFrom fuel' s old new.
Proof.
  induction fuel as [|fuel IH]; intros fuel' s Hlen Hlen'.
  - destruct s; [destruct fuel'; reflexivity | simpl in Hlen; lia].
  - destruct s as [|c s]; [destruct fuel'; reflexivity|]. simpl in Hlen, Hlen'.
    destruct fuel' as [|fuel']; [lia|].
    cbn [replaceFrom]. destruct (HasPrefix (c :: s) old).
    + pose proof (skipn_key_shorter old c s old_nonempty).
      f_equal. apply IH; lia.
    + f_equal. apply IH; lia.
Qed.

(** The equations of [ReplaceAll]. *)
Lemma ReplaceAll_nil_eq : ReplaceAll [] old new = [].
Proof. apply ReplaceAll_nil, old_nonempty. Qed.

Lemma ReplaceAll_cons c s :
  ReplaceAll (c :: s) old new
  = if HasPrefix (c :: s) old
    then new ++ ReplaceAll (skipn (length old) (c :: s)) old new
    else c :: ReplaceAll s old new.
Proof.
  rewrite !ReplaceAll_unfold by exact old_nonempty.
  pose proof (skipn_key_shorter old c s old_nonempty).
  cbn [replaceFrom length]. destruct (HasPrefix (c :: s) old); f_equal.
  apply replaceFrom_enough; lia.
Qed.

(** Induction over the way [ReplaceAll] reads its input. *)
Lemma ReplaceAll_ind (P : gostring -> Prop) :
  P [] ->
  (forall c s, HasPrefix (c :: s) old = true ->
               P (skipn (length old) (c :: s)) -> P (c :: s)) ->
  (forall c s, HasPrefix (c :: s) old = false -> P s -> P (c :: s)) ->
  forall s, P s.
Proof.
  intros Hnil Hhit Hmiss s.
  assert (H : forall n s, (length s <= n)%nat -> P s).
  { clear s. induction n as [|n IH]; intros s Hlen.
    - destruct s; [exact Hnil | simpl in Hlen; lia].
    - destruct s as [|c s]; [exact Hnil|]. simpl in Hlen.
      pose proof (skipn_key_shorter old c s old_nonempty).
      destruct (HasPrefix (c :: s) old) eqn:E.
      + apply Hhit; [exact E|]. apply IH. lia.
      + apply Hmiss; [exact E|]. apply IH. lia. }
  apply (H (length s)). lia.
Qed.

(** A string without [old] is left as it is. *)
Lemma ReplaceAll_absent s : Contains s old = false -> ReplaceAll s old new = s.
Proof.
  induction s as [|c s IH]; intros H; [apply ReplaceAll_nil_eq|].
  rewrite Contains_cons in H. apply orb_false_iff in H. destruct H as [Hp Hc].
  rewrite ReplaceAll_cons, Hp, IH by exact Hc. reflexivity.
Qed.

Hypothesis new_nonempty : new <> [].

(** A key that starts the result started the input. *)
Lemma HasPrefix_ReplaceAll k : forall s,
  apart k new ->
  HasPrefix (ReplaceAll s old new) k = true -> HasPrefix s k = true.
Proof.
  induction k as [|p k IH]; intros s Hsep H.
  - apply HasPrefix_nil_r.
  - destruct s as [|c s]; [rewrite ReplaceAll_nil_eq in H; discriminate|].
    rewrite ReplaceAll_cons in H. destruct (HasPrefix (c :: s) old) eqn:E.
    + exfalso. apply (Hsep p); [left; reflexivity|].
      revert H new_nonempty. clear. destruct new as [|n new']; [congruence|].
      simpl. intros H _. apply andb_true_iff in H. destruct H as [H _].
      apply N.eqb_eq in H. left. exact H.
    + simpl in H. apply andb_true_iff in H. destruct H as [Hc H].
      apply IH in H.
      * simpl. rewrite Hc. exact H.
      * intros r Hr. apply Hsep. right. exact Hr.
Qed.

(** Replacing puts no key where there was none. *)
Lemma Contains_ReplaceAll k s :
  k <> [] -> apart k new ->
  Contains s k = false -> Contains (ReplaceAll s old new) k = false.
Proof.
  intros Hk Hsep. induction s as [| c s Hhit IH | c s Hmiss IH] using ReplaceAll_ind; intros H.
  - rewrite ReplaceAll_nil_eq. exact H.
  - rewrite ReplaceAll_cons, Hhit, Contains_app_apart by assumption.
    apply IH. destruct (Contains (skipn (length old) (c :: s)) k) eqn:E; [|reflexivity].
    apply Contains_skipn in E. congruence.
  - rewrite Contains_cons in H. apply orb_false_iff in H. destruct H as [Hp Hc].
    assert (R : ReplaceAll (c :: s) old new = c :: ReplaceAll s old new)
      by (rewrite ReplaceAll_cons, Hmiss; reflexivity).
    rewrite R, Contains_cons, (IH Hc), orb_false_r. rewrite <- R.
    destruct (HasPrefix (ReplaceAll (c :: s) old new) k) eqn:E; [|reflexivity].
    apply HasPrefix_ReplaceAll in E; [|exact Hsep]. congruence.
Qed.

(** After replacing, [old] does not occur. *)
Lemma ReplaceAll_gone s : apart old new -> Contains (ReplaceAll s old new) old = false.
Proof.
  intros Hsep. induction s as [| c s Hhit IH | c s Hmiss IH] using ReplaceAll_ind.
  - rewrite ReplaceAll_nil_eq. change (Contains [] old) with (HasPrefix [] old || false).
    rewrite HasPrefix_nil_l by assumption. reflexivity.
  - rewrite ReplaceAll_cons, Hhit, Contains_app_apart by assumption. exact IH.
  - assert (R : ReplaceAll (c :: s) old new = c :: ReplaceAll s old new)
      by (rewrite ReplaceAll_cons, Hmiss; reflexivity).
    rewrite R, Contains_cons, IH, orb_false_r. rewrite <- R.
    destruct (HasPrefix (ReplaceAll (c :: s) old new) old) eqn:E; [|reflexivity].
    apply HasPrefix_ReplaceAll in E; [|exact Hsep]. congruence.
Qed.

End Replace.

(** ** The shape of the tables *)

Lemma tables_wellFormed :
  forallb wellFormedEntry vowels = true /\ forallb wellFormedEntry consonants = true
  /\ forallb wellFormedEntry compounds = true /\ forallb wellFormedEntry modifiers = true.
Proof. repeat split. Qed.

Lemma tables_singleRune :
  forallb singleRuneKey vowels = true /\ forallb singleRuneKey consonants = true
  /\ forallb singleRuneKey modifiers = true.
Proof. repeat split. Qed.

Lemma tables_distinct :
  distinct (keysOf vowels) = true /\ distinct (keysOf consonants) = true
  /\ distinct (keysOf compounds) = true /\ distinct (keysOf modifiers) = true.
Proof. repeat split. Qed.

Lemma forallb_Permutation (p : gostring * gostring -> bool) t t' :
  forallb p t = true -> Permutation t t' -> forall e, In e t' -> p e = true.
Proof.
  intros H HP e He. rewrite forallb_forall in H. apply H.
  apply Permutation_sym in HP. exact (Permutation_in _ HP He).
Qed.

Lemma distinct_NoDup keys : distinct keys = true -> NoDup keys.
Proof.
  induction keys as [|k more IH]; simpl; intros H; constructor.
  - apply andb_true_iff in H. destruct H as [H _]. apply negb_true_iff in H.
    intros Hin. assert (E : existsb (eqRunes k) more = true).
    { apply existsb_exists. exists k. split; [exact Hin | apply eqRunes_eq; reflexivity]. }
    congruence.
  - apply IH. apply andb_true_iff in H. tauto.
Qed.

Lemma wellFormedEntry_spec e :
  wellFormedEntry e = true ->
  fst e <> []
  /\ Forall (fun r => isASCII r = false) (fst e)
  /\ Forall (fun r => isASCII r = true) (snd e).
Proof.
  unfold wellFormedEntry. rewrite !andb_true_iff. intros [[H1 H2] H3].
  split; [|split].
  - intros E. rewrite E in H1. discriminate.
  - apply Forall_forall. intros r Hr. rewrite forallb_forall in H2.
    apply negb_true_iff. exact (H2 r Hr).
  - apply Forall_forall. rewrite forallb_forall in H3. exact H3.
Qed.

Lemma apart_ASCII k v :
  Forall (fun r => isASCII r = false) k -> Forall (fun r => isASCII r = true) v -> apart k v.
Proof.
  intros Hk Hv r Hrk Hrv. rewrite Forall_forall in Hk, Hv.
  specialize (Hk r Hrk). specialize (Hv r Hrv). congruence.
Qed.

Lemma braced_ASCII v :
  Forall (fun r => isASCII r = true) v -> Forall (fun r => isASCII r = true) (braced v).
Proof.
  intros H. unfold braced. apply Forall_app. split; [repeat constructor|].
  apply Forall_app. split; [exact H | repeat constructor].
Qed.

Lemma braced_nonempty v : braced v <> [].
Proof. discriminate. Qed.

(** ** Lookup does not depend on the order of the entries *)

Lemma lookup_Some t k v : lookup t k = Some v -> In (k, v) t.
Proof.
  induction t as [|[k' v'] t IH]; simpl; [discriminate|].
  destruct (eqRunes k' k) eqn:E.
  - apply eqRunes_eq in E. intros H. injection H as ->. subst. left. reflexivity.
  - intros H. right. exact (IH H).
Qed.

Lemma lookup_None t k : lookup t k = None -> ~ In k (keysOf t).
Proof.
  induction t as [|[k' v'] t IH]; simpl; [tauto|].
  destruct (eqRunes k' k) eqn:E; [discriminate|].
  intros H [Hk | Hin]; [|exact (IH H Hin)].
  subst k'. rewrite (proj2 (eqRunes_eq k k) eq_refl) in E. discriminate.
Qed.

Lemma In_lookup t k v : NoDup (keysOf t) -> In (k, v) t -> lookup t k = Some v.
Proof.
  induction t as [|[k' v'] t IH]; simpl; intros Hnd Hin; [tauto|].
  inversion Hnd as [|? ? Hk' Hnd']; subst.
  destruct Hin as [E | Hin].
  - injection E as -> ->. rewrite (proj2 (eqRunes_eq k k) eq_refl). reflexivity.
  - destruct (eqRunes k' k) eqn:E; [|exact (IH Hnd' Hin)].
    apply eqRunes_eq in E. subst k'. exfalso. apply Hk'.
    apply (in_map fst) in Hin. exact Hin.
Qed.

Lemma lookup_Permutation t t' k :
  NoDup (keysOf t) -> Permutation t t' -> lookup t' k = lookup t k.
Proof.
  intros Hnd HP.
  assert (Hnd' : NoDup (keysOf t'))
    by (eapply Permutation_NoDup; [apply Permutation_map; exact HP | exact Hnd]).
  destruct (lookup t k) as [v|] eqn:E.
  - apply In_lookup; [exact Hnd'|]. apply (Permutation_in _ HP). apply lookup_Some. exact E.
  - destruct (lookup t' k) as [v'|] eqn:E'; [|reflexivity].
    exfalso. apply (lookup_None _ _ E).
    apply lookup_Some in E'. apply Permutation_sym in HP.
    apply (Permutation_in _ HP) in E'. apply (in_map fst) in E'. exact E'.
Qed.

(** ** The replacement loops *)

Lemma replaceGrouped_each visit input :
  replaceGrouped visit input = replaceEach braced visit input.
Proof. reflexivity. Qed.

Lemma replacePlain_each visit input :
  replacePlain visit input = replaceEach (fun v => v) visit input.
Proof. reflexivity. Qed.

Lemma replaceEach_cons wrapper e visit input :
  replaceEach wrapper (e :: visit) input
  = replaceEach wrapper visit (ReplaceAll input (fst e) (wrapper (snd e))).
Proof. reflexivity. Qed.

Lemma ReplaceAll_rune a new s :
  ReplaceAll s [a] new = flat_map (fun c => if c =? a then new else [c]) s.
Proof.
  assert (Ha : [a] <> []) by discriminate.
  induction s as [|c s IH]; [reflexivity|].
  rewrite (ReplaceAll_cons [a] new Ha). cbn [HasPrefix length skipn flat_map].
  rewrite HasPrefix_nil_r, andb_true_r, IH.
  destruct (c =? a); reflexivity.
Qed.

Lemma flat_map_flat_map (f g : rune -> gostring) s :
  flat_map g (flat_map f s) = flat_map (fun c => flat_map g (f c)) s.
Proof.
  induction s as [|c s IH]; simpl; [reflexivity|].
  rewrite flat_map_app, IH. reflexivity.
Qed.

Lemma lookup_ASCII t r :
  (forall e, In e t -> wellFormedEntry e = true) ->
  isASCII r = true -> lookup t [r] = None.
Proof.
  intros Hwf Hr. destruct (lookup t [r]) as [v|] eqn:E; [|reflexivity].
  apply lookup_Some in E. apply Hwf, wellFormedEntry_spec in E.
  destruct E as (_ & E & _). simpl in E. inversion E; subst. congruence.
Qed.

Section Loops.

Variable wrapper : gostring -> gostring.
Hypothesis wrapper_ASCII : forall v,
  Forall (fun r => isASCII r = true) v -> Forall (fun r => isASCII r = true) (wrapper v).

Lemma substAll_ASCII t s :
  (forall e, In e t -> wellFormedEntry e = true) ->
  Forall (fun r => isASCII r = true) s -> substAll wrapper t s = s.
Proof.
  intros Hwf. induction 1 as [|c s Hc Hs IH]; [reflexivity|].
  unfold substAll in *. simpl. rewrite IH. unfold substRune.
  rewrite (lookup_ASCII t c Hwf Hc). reflexivity.
Qed.

(** A loop over single-rune keys is one simultaneous substitution. *)
Lemma replaceEach_substAll visit :
  (forall e, In e visit -> wellFormedEntry e = true) ->
  (forall e, In e visit -> singleRuneKey e = true) ->
  forall input, replaceEach wrapper visit input = substAll wrapper visit input.
Proof.
  induction visit as [|[k v] visit IH]; intros Hwf Hone input.
  - unfold substAll, substRune. simpl. induction input; simpl; congruence.
  - assert (Hk := Hone (k, v) (or_introl eq_refl)).
    unfold singleRuneKey in Hk. simpl in Hk.
    destruct k as [|a [|]]; try discriminate.
    rewrite replaceEach_cons. cbn [fst snd].
    rewrite IH by (intros; auto using in_cons).
    rewrite ReplaceAll_rune. unfold substAll at 1. rewrite flat_map_flat_map.
    apply flat_map_ext. intros c. unfold substRune at 2. cbn [lookup eqRunes].
    rewrite andb_true_r, (N.eqb_sym a c). destruct (c =? a).
    + fold (substAll wrapper visit (wrapper v)). apply substAll_ASCII.
      * intros; auto using in_cons.
      * apply wrapper_ASCII.
        apply (wellFormedEntry_spec _ (Hwf ([a], v) (or_introl eq_refl))).
    + simpl. apply app_nil_r.
Qed.

(** ... so the order in which such a map is visited is immaterial. *)
Lemma replaceEach_Permutation t visit input :
  forallb wellFormedEntry t = true -> forallb singleRuneKey t = true ->
  distinct (keysOf t) = true -> Permutation t visit ->
  replaceEach wrapper visit input = replaceEach wrapper t input.
Proof.
  intros Hwf Hone Hd HP.
  rewrite !replaceEach_substAll;
    try (apply forallb_forall; assumption);
    try (eapply forallb_Permutation; eassumption).
  apply flat_map_ext. intros c. unfold substRune.
  rewrite (lookup_Permutation t visit) by auto using distinct_NoDup. reflexivity.
Qed.

Hypothesis wrapper_nonempty : forall v, wrapper v <> [].

(** Keys that are absent stay absent. *)
Lemma replaceEach_absent k visit :
  k <> [] -> Forall (fun r => isASCII r = false) k ->
  (forall e, In e visit -> wellFormedEntry e = true) ->
  forall input, Contains input k = false ->
  Contains (replaceEach wrapper visit input) k = false.
Proof.
  intros Hk Hkn. induction visit as [|e visit IH]; intros Hwf input H; [exact H|].
  rewrite replaceEach_cons.
  destruct (wellFormedEntry_spec e (Hwf e (or_introl eq_refl))) as (He & _ & Hv).
  apply IH; [intros; auto using in_cons|].
  apply Contains_ReplaceAll; auto using apart_ASCII.
Qed.

(** Once the loop is over, no key of the map occurs. *)
Lemma replaceEach_gone visit :
  (forall e, In e visit -> wellFormedEntry e = true) ->
  forall input e, In e visit -> Contains (replaceEach wrapper visit input) (fst e) = false.
Proof.
  induction visit as [|e' visit IH]; intros Hwf input e He; [destruct He|].
  rewrite replaceEach_cons.
  destruct (wellFormedEntry_spec e' (Hwf e' (or_introl eq_refl))) as (He' & Hk' & Hv').
  destruct He as [<- | He].
  - apply replaceEach_absent; auto using in_cons.
    apply ReplaceAll_gone; auto using apart_ASCII.
  - apply IH; auto using in_cons.
Qed.

(** A loop that meets no key changes nothing. *)
Lemma replaceEach_none visit input :
  (forall e, In e visit -> wellFormedEntry e = true) ->
  (forall e, In e visit -> Contains input (fst e) = false) ->
  replaceEach wrapper visit input = input.
Proof.
  induction visit as [|e visit IH]; intros Hwf H; [reflexivity|].
  rewrite replaceEach_cons.
  destruct (wellFormedEntry_spec e (Hwf e (or_introl eq_refl))) as (He & _ & _).
  rewrite ReplaceAll_absent by auto using in_eq.
  apply IH; auto using in_cons.
Qed.

(** When at most the key of [e] occurs, the loop is the replacement of
    that key, wherever [e] comes in the visit. *)
Lemma replaceEach_sole visit input e :
  (forall e', In e' visit -> wellFormedEntry e' = true) ->
  NoDup (keysOf visit) -> In e visit ->
  (forall e', In e' visit -> fst e' <> fst e -> Contains input (fst e') = false) ->
  replaceEach wrapper visit input = ReplaceAll input (fst e) (wrapper (snd e)).
Proof.
  induction visit as [|e1 visit IH]; intros Hwf Hnd He H; [destruct He|].
  rewrite replaceEach_cons.
  inversion Hnd as [|? ? Hk1 Hnd']; subst.
  destruct (wellFormedEntry_spec e1 (Hwf e1 (or_introl eq_refl))) as (He1 & _ & Hv1).
  destruct He as [-> | He].
  - apply replaceEach_none; [intros; auto using in_cons|].
    intros e' He'.
    destruct (wellFormedEntry_spec e' (Hwf e' (or_intror He'))) as (Hne & Hkn & _).
    apply Contains_ReplaceAll; auto using apart_ASCII.
    apply H; [right; exact He'|].
    intros E. apply Hk1. rewrite <- E. apply (in_map fst). exact He'.
  - assert (Hne : fst e1 <> fst e).
    { intros E. apply Hk1. rewrite E. apply (in_map fst). exact He. }
    rewrite (ReplaceAll_absent (fst e1)) by auto using in_eq.
    apply IH; auto using in_cons.
Qed.

End Loops.

Lemma replaceGrouped_Permutation t visit input :
  forallb wellFormedEntry t = true -> forallb singleRuneKey t = true ->
  distinct (keysOf t) = true -> Permutation t visit ->
  replaceGrouped visit input = replaceGrouped t input.
Proof. rewrite !replaceGrouped_each. apply replaceEach_Permutation, braced_ASCII. Qed.

Lemma replacePlain_Permutation t visit input :
  forallb wellFormedEntry t = true -> forallb singleRuneKey t = true ->
  distinct (keysOf t) = true -> Permutation t visit ->
  replacePlain visit input = replacePlain t input.
Proof. rewrite !replacePlain_each. apply replaceEach_Permutation. auto. Qed.

(** ** The order of the alternatives in a pattern *)

Lemma tryAlts_ext {A} (k k' : gostring -> gostring -> option A) alts s :
  (forall a rest, k a rest = k' a rest) -> tryAlts alts s k = tryAlts alts s k'.
Proof.
  intros H. induction alts as [|a alts IH]; simpl; [reflexivity|].
  rewrite H, IH. reflexivity.
Qed.

Lemma tryAlts_none {A} (k : gostring -> gostring -> option A) alts s :
  (forall a, In a alts -> HasPrefix s a = true -> k a (skipn (length a) s) = None) ->
  tryAlts alts s k = None.
Proof.
  induction alts as [|a alts IH]; intros H; simpl; [reflexivity|].
  rewrite IH by (intros; auto using in_cons).
  destruct (HasPrefix s a) eqn:E; [|reflexivity].
  rewrite (H a (or_introl eq_refl) E). reflexivity.
Qed.

Lemma tryAlts_only {A} (k : gostring -> gostring -> option A) alts s a :
  In a alts -> HasPrefix s a = true ->
  (forall b, In b alts -> HasPrefix s b = true -> b = a) ->
  tryAlts alts s k = k a (skipn (length a) s).
Proof.
  induction alts as [|b alts IH]; intros Hin Ha Honly; [destruct Hin|]. simpl.
  destruct (HasPrefix s b) eqn:E.
  - rewrite (Honly b (or_introl eq_refl) E).
    destruct (k a (skipn (length a) s)) eqn:K; [reflexivity|].
    apply tryAlts_none. intros c Hc Hp.
    rewrite (Honly c (or_intror Hc) Hp). exact K.
  - destruct Hin as [-> | Hin]; [congruence|].
    apply IH; auto using in_cons.
Qed.

Lemma prefixFree_only alts s a b :
  prefixFree alts = true -> In a alts -> In b alts ->
  HasPrefix s a = true -> HasPrefix s b = true -> b = a.
Proof.
  unfold prefixFree. rewrite forallb_forall. intros H Ha Hb Hsa Hsb.
  assert (Hab := H a Ha). rewrite forallb_forall in Hab. specialize (Hab b Hb).
  assert (Hba := H b Hb). rewrite forallb_forall in Hba. specialize (Hba a Ha).
  destruct (HasPrefix_both a s b Hsa Hsb) as [E | E]; rewrite E in *; simpl in *.
  - apply eqRunes_eq in Hab. congruence.
  - apply eqRunes_eq in Hba. congruence.
Qed.

Lemma tryAlts_Permutation {A} (k : gostring -> gostring -> option A) alts alts' s :
  prefixFree alts = true -> Permutation alts alts' ->
  tryAlts alts' s k = tryAlts alts s k.
Proof.
  intros Hpf HP.
  assert (HP' := Permutation_sym HP).
  destruct (find (HasPrefix s) alts) as [a|] eqn:F.
  - apply find_some in F. destruct F as [Ha Hsa].
    rewrite (tryAlts_only k alts s a), (tryAlts_only k alts' s a); auto.
    + apply (Permutation_in _ HP Ha).
    + intros b Hb. apply (prefixFree_only alts); auto. apply (Permutation_in _ HP' Hb).
    + intros b Hb. apply (prefixFree_only alts); auto.
  - rewrite !tryAlts_none; [reflexivity | |].
    + intros a Ha E. rewrite (find_none _ _ F a Ha) in E. discriminate.
    + intros a Ha E. apply (Permutation_in _ HP') in Ha.
      rewrite (find_none _ _ F a Ha) in E. discriminate.
Qed.

Lemma matchAt_Permutation glyphs glyphs' mods mods' s :
  prefixFree glyphs = true -> prefixFree mods = true ->
  Permutation glyphs glyphs' -> Permutation mods mods' ->
  matchAt (ReGlyphMod glyphs' mods') s = matchAt (ReGlyphMod glyphs mods) s.
Proof.
  intros Hg Hm HPg HPm. simpl.
  rewrite (tryAlts_Permutation _ glyphs glyphs') by assumption.
  apply tryAlts_ext. intros g rest.
  apply tryAlts_Permutation; assumption.
Qed.

Lemma findFrom_ext re re' :
  (forall s, matchAt re s = matchAt re' s) ->
  forall fuel s, findFrom fuel re s = findFrom fuel re' s.
Proof.
  intros H. induction fuel as [|fuel IH]; intros s; [reflexivity|].
  destruct s as [|c s]; [reflexivity|]. cbn [findFrom].
  rewrite H. destruct (matchAt re' (c :: s)); rewrite ?IH; reflexivity.
Qed.

Lemma replaceModifiedGlyphs_Permutation glyphs glyphs' mods mods' input t :
  prefixFree glyphs = true -> prefixFree mods = true ->
  Permutation glyphs glyphs' -> Permutation mods mods' ->
  replaceModifiedGlyphs input t (ReGlyphMod glyphs' mods')
  = replaceModifiedGlyphs input t (ReGlyphMod glyphs mods).
Proof.
  intros. unfold replaceModifiedGlyphs, FindAllStringSubmatch.
  rewrite (findFrom_ext (ReGlyphMod glyphs' mods') (ReGlyphMod glyphs mods));
    [reflexivity|].
  intros s. apply matchAt_Permutation; assumption.
Qed.

Lemma tables_prefixFree :
  prefixFree (keysOf vowels) = true /\ prefixFree (keysOf consonants) = true
  /\ prefixFree (keysOf compounds) = true /\ prefixFree (keysOf modifiers) = true.
Proof. repeat split. Qed.

(** The three matchers find the same matches whatever order [New] met
    the keys in. *)
Lemma replaceModifiedGlyphs_encoder nr input :
  (forall t, replaceModifiedGlyphs input t (modCompounds (encoder nr))
             = replaceModifiedGlyphs input t (modCompounds (encoder asWritten)))
  /\ (forall t, replaceModifiedGlyphs input t (modConsonants (encoder nr))
                = replaceModifiedGlyphs input t (modConsonants (encoder asWritten)))
  /\ (forall t, replaceModifiedGlyphs input t (modVowels (encoder nr))
                = replaceModifiedGlyphs input t (modVowels (encoder asWritten))).
Proof.
  destruct tables_prefixFree as (Hv & Hk & Hc & Hm).
  repeat split; intros t; apply replaceModifiedGlyphs_Permutation;
    try assumption; apply Permutation_map;
    auto using newModifiers_perm, newCompounds_perm, newConsonants_perm, newVowels_perm.
Qed.

(** ** When the result does not depend on the order of [range] *)

Lemma replaceGrouped_oneKey t visit w :
  forallb wellFormedEntry t = true -> distinct (keysOf t) = true ->
  oneKey t w = true -> Permutation t visit ->
  replaceGrouped visit w = replaceGrouped t w.
Proof.
  intros Hwf Hd H HP. unfold oneKey in H. apply existsb_exists in H.
  destruct H as (e & He & H). rewrite forallb_forall in H.
  assert (Hsole : forall e', In e' t -> fst e' <> fst e -> Contains w (fst e') = false).
  { intros e' He' Hne. specialize (H e' He'). apply orb_true_iff in H.
    destruct H as [H | H]; [apply eqRunes_eq in H; congruence|].
    apply negb_true_iff in H. exact H. }
  rewrite !replaceGrouped_each.
  transitivity (ReplaceAll w (fst e) (braced (snd e))); [|symmetry].
  - apply (replaceEach_sole braced braced_ASCII braced_nonempty).
    + eapply forallb_Permutation; eassumption.
    + eapply Permutation_NoDup; [apply Permutation_map; exact HP|].
      auto using distinct_NoDup.
    + apply (Permutation_in _ HP He).
    + intros e' He'. apply Hsole. apply Permutation_sym in HP.
      apply (Permutation_in _ HP He').
  - apply (replaceEach_sole braced braced_ASCII braced_nonempty);
      auto using distinct_NoDup.
    apply forallb_forall. exact Hwf.
Qed.

Lemma replaceGrouped_compounds visit w :
  oneCompound w = true -> Permutation compounds visit ->
  replaceGrouped visit w = replaceGrouped compounds w.
Proof.
  intros H HP.
  exact (replaceGrouped_oneKey compounds visit w
           (proj1 (proj2 (proj2 tables_wellFormed)))
           (proj1 (proj2 (proj2 tables_distinct))) H HP).
Qed.

(** As long as at most one compound key is left for the loop over
    [compounds], [process] gives what it gives when every map is visited as
    written. *)
Theorem process_any_order nr cr input :
  oneCompound (afterModifiedCompounds input) = true ->
  process pkg (encoder nr) cr input = process pkg (encoder asWritten) asWrittenCall input.
Proof.
  intros H. unfold afterModifiedCompounds in H.
  destruct tables_wellFormed as (Hwv & Hwk & _ & Hwm).
  destruct tables_singleRune as (Hsv & Hsk & Hsm).
  destruct tables_distinct as (Hdv & Hdk & _ & Hdm).
  unfold process. rewrite !regexNonTulu_filter.
  destruct (replaceModifiedGlyphs_encoder nr (filter Kannada (TrimSpace input))) as (-> & _).
  rewrite (replaceGrouped_compounds (rangeCompounds cr)) by auto using rangeCompounds_perm.
  change (rangeCompounds asWrittenCall) with compounds.
  change (rangeConsonants asWrittenCall) with consonants.
  change (rangeVowels asWrittenCall) with vowels.
  change (rangeModifiers asWrittenCall) with modifiers.
  set (w := replaceGrouped compounds _).
  destruct (replaceModifiedGlyphs_encoder nr w) as (_ & -> & _).
  set (w' := replaceModifiedGlyphs w consonants _).
  destruct (replaceModifiedGlyphs_encoder nr w') as (_ & _ & ->).
  rewrite (replaceGrouped_Permutation consonants (rangeConsonants cr))
    by auto using rangeConsonants_perm.
  rewrite (replaceGrouped_Permutation vowels (rangeVowels cr))
    by auto using rangeVowels_perm.
  rewrite (replacePlain_Permutation modifiers (rangeModifiers cr))
    by auto using rangeModifiers_perm.
  reflexivity.
Qed.

Corollary NewEncode_any_order nr cr input :
  oneCompound (afterModifiedCompounds input) = true ->
  NewEncode Compile nr cr input = NewEncode Compile asWritten asWrittenCall input.
Proof.
  intros H. rewrite !NewEncode_Compile, !Encode_from_key2, (process_any_order nr cr input H).
  reflexivity.
Qed.


(** ** The reference vectors *)

(** C1: for each of the six reference vectors, [Encode] returns the
    listed triple, whatever order the maps are visited in. *)
Theorem reference_vectors nr cr :
  Forall (fun v => NewEncode Compile nr cr (runes (fst v)) = expected (snd v)) vectors
  /\ NewEncode Compile nr cr (runes "ತುಂಬಾ") = Ok (runes "03B", runes "03B", runes "053B")
  /\ NewEncode Compile nr cr (runes "ಮಕ್ಕಳು") = Ok (runes "MKL", runes "MKL1", runes "MK2L15").
Proof.
  assert (H : Forall (fun v => NewEncode Compile nr cr (runes (fst v)) = expected (snd v))
                     vectors).
  { repeat constructor; cbn [fst snd];
      (rewrite NewEncode_any_order; [| vm_compute; reflexivity]); vm_compute; reflexivity. }
  split; [exact H|].
  inversion H as [|? ? HA H']; subst. inversion H' as [|? ? HB ?]; subst.
  split; [exact HA | exact HB].
Qed.



(** ** A word that begins with a compound *)

Lemma HasPrefix_split a : forall s, HasPrefix s a = true -> s = a ++ skipn (length a) s.
Proof.
  induction a as [|x a IH]; intros s H; [reflexivity|].
  destruct s as [|c s]; [discriminate|]. simpl in H.
  apply andb_true_iff in H. destruct H as [Hc H]. apply N.eqb_eq in Hc. subst c.
  simpl. f_equal. apply IH. exact H.
Qed.

Lemma HasPrefix_app_same a x : HasPrefix (a ++ x) a = true.
Proof.
  induction a as [|c a IH]; simpl; [apply HasPrefix_nil_r|].
  rewrite N.eqb_refl. exact IH.
Qed.

Lemma skipn_app_same (a x : gostring) : skipn (length a) (a ++ x) = x.
Proof. induction a; simpl; auto. Qed.

Lemma HasPrefix_app_cases t : forall g post,
  HasPrefix (t ++ post) g = true ->
  HasPrefix t g = true
  \/ (HasPrefix g t = true /\ HasPrefix post (skipn (length t) g) = true).
Proof.
  induction t as [|c t IH]; intros g post H.
  - right. split; [apply HasPrefix_nil_r | exact H].
  - destruct g as [|x g]; [left; reflexivity|].
    simpl in H. apply andb_true_iff in H. destruct H as [Hc H].
    apply N.eqb_eq in Hc. subst x.
    destruct (IH g post H) as [E | [E1 E2]].
    + left. simpl. rewrite N.eqb_refl. exact E.
    + right. simpl. rewrite N.eqb_refl. split; assumption.
Qed.

Lemma ReplaceAll_ASCII_prefix a x old new :
  Forall (fun r => isASCII r = true) a ->
  old <> [] -> Forall (fun r => isASCII r = false) old ->
  ReplaceAll (a ++ x) old new = a ++ ReplaceAll x old new.
Proof.
  intros Ha Hne Hold. induction Ha as [|c a Hc Ha IH]; [reflexivity|].
  simpl app. rewrite (ReplaceAll_cons old new Hne).
  replace (HasPrefix (c :: a ++ x) old) with false; [rewrite IH; reflexivity|].
  destruct old as [|o old]; [congruence|]. inversion Hold; subst. simpl.
  destruct (N.eqb_spec c o); [congruence | reflexivity].
Qed.

Lemma isModifier_ASCII r : isASCII r = true -> isModifier r = false.
Proof.
  intros H. destruct (isModifier r) eqn:E; [|reflexivity].
  unfold isModifier in E. apply existsb_exists in E. destruct E as (e & He & E).
  apply eqRunes_eq in E.
  destruct tables_wellFormed as (_ & _ & _ & Hwf). rewrite forallb_forall in Hwf.
  destruct (wellFormedEntry_spec e (Hwf e He)) as (_ & Hk & _).
  rewrite E in Hk. inversion Hk; subst. congruence.
Qed.

Lemma noOverlap_spec k g t post :
  noOverlap k g = true -> In t (suffixes k) -> startsWithModifier post = false ->
  HasPrefix (t ++ post) g = false.
Proof.
  intros H Ht Hpost. unfold noOverlap in H. rewrite forallb_forall in H.
  specialize (H t Ht). apply andb_true_iff in H. destruct H as [H1 H2].
  apply negb_true_iff in H1.
  destruct (HasPrefix (t ++ post) g) eqn:E; [|reflexivity]. exfalso.
  destruct (HasPrefix_app_cases t g post E) as [E1 | [E1 E2]]; [congruence|].
  rewrite E1 in H2. simpl in H2.
  destruct (skipn (length t) g) as [|r0 r]; [discriminate|].
  destruct post as [|c post]; [discriminate|]. simpl in *.
  apply andb_true_iff in E2. destruct E2 as [E2 _]. apply N.eqb_eq in E2. subst c.
  congruence.
Qed.

Lemma ReplaceAll_past k : forall post g new,
  g <> [] ->
  (forall t, In t (suffixes k) -> HasPrefix (t ++ post) g = false) ->
  ReplaceAll (k ++ post) g new = k ++ ReplaceAll post g new.
Proof.
  induction k as [|c k IH]; intros post g new Hg H; [reflexivity|].
  simpl app. rewrite (ReplaceAll_cons g new Hg).
  change (c :: k ++ post) with ((c :: k) ++ post).
  rewrite (H (c :: k)) by (left; reflexivity).
  rewrite IH; [reflexivity | exact Hg |].
  intros t Ht. apply H. right. exact Ht.
Qed.

Lemma startsWithModifier_ReplaceAll post g new :
  g <> [] -> new <> [] -> Forall (fun r => isASCII r = true) new ->
  startsWithModifier post = false ->
  startsWithModifier (ReplaceAll post g new) = false.
Proof.
  intros Hg Hnew Hascii H. destruct post as [|c post].
  - rewrite (ReplaceAll_nil_eq g new Hg). reflexivity.
  - rewrite (ReplaceAll_cons g new Hg). destruct (HasPrefix (c :: post) g); [|exact H].
    destruct new as [|n new]; [congruence|]. inversion Hascii; subst.
    simpl. apply isModifier_ASCII. assumption.
Qed.

Lemma compoundsApart_ok : compoundsApart = true.
Proof. vm_compute. reflexivity. Qed.

(** One replacement of a compound key keeps the word [leading]. *)
Lemma leading_ReplaceAll k v g rep new cur :
  In (k, v) compounds -> In (g, rep) compounds ->
  new <> [] -> Forall (fun r => isASCII r = true) new ->
  (g = k -> new = v \/ new = braced v) ->
  leading k v cur -> leading k v (ReplaceAll cur g new).
Proof.
  intros Hk Hg Hnew Hascii Hsame H.
  destruct tables_wellFormed as (_ & _ & Hwf & _). rewrite forallb_forall in Hwf.
  destruct (wellFormedEntry_spec _ (Hwf _ Hk)) as (Hkne & Hkn & Hva).
  destruct (wellFormedEntry_spec _ (Hwf _ Hg)) as (Hgne & Hgn & _).
  simpl in Hkne, Hkn, Hva, Hgne, Hgn.
  destruct H as [H | [H | [H1 H2]]].
  - left. rewrite (HasPrefix_split v cur H), ReplaceAll_ASCII_prefix by assumption.
    apply HasPrefix_app_same.
  - right. left.
    rewrite (HasPrefix_split _ cur H), ReplaceAll_ASCII_prefix
      by auto using braced_ASCII.
    apply HasPrefix_app_same.
  - rewrite (HasPrefix_split k cur H1). set (post := skipn (length k) cur) in *.
    destruct (eqRunes g k) eqn:E.
    + apply eqRunes_eq in E. subst g.
      assert (R : ReplaceAll (k ++ post) k new = new ++ ReplaceAll post k new).
      { destruct k as [|c k]; [congruence|]. simpl app.
        rewrite (ReplaceAll_cons (c :: k) new Hgne).
        change (c :: k ++ post) with ((c :: k) ++ post).
        rewrite HasPrefix_app_same, skipn_app_same. reflexivity. }
      rewrite R. destruct (Hsame eq_refl) as [-> | ->].
      * left. apply HasPrefix_app_same.
      * right. left. apply HasPrefix_app_same.
    + right. right.
      pose proof compoundsApart_ok as Hap. unfold compoundsApart in Hap.
      rewrite forallb_forall in Hap.
      specialize (Hap k (in_map fst _ _ Hk)). rewrite forallb_forall in Hap.
      specialize (Hap g (in_map fst _ _ Hg)). simpl in Hap. rewrite E in Hap. simpl in Hap.
      rewrite ReplaceAll_past; [| exact Hgne |].
      * split; [apply HasPrefix_app_same|]. rewrite skipn_app_same.
        apply startsWithModifier_ReplaceAll; assumption.
      * intros t Ht. apply (noOverlap_spec k g); assumption.
Qed.

Lemma replaceModifiedGlyphs_applyMatches input t re :
  replaceModifiedGlyphs input t re = applyMatches t (FindAllStringSubmatch re input) input.
Proof. reflexivity. Qed.

(** What every replacement of a pass keeps, the pass keeps. *)
Lemma applyMatches_invariant (Inv : gostring -> Prop) t found :
  (forall cur g rep, In (g, rep) t -> Inv cur -> Inv (ReplaceAll cur g rep)) ->
  forall cur, Inv cur -> Inv (applyMatches t found cur).
Proof.
  intros Hstep. unfold applyMatches.
  induction found as [|sub found IH]; intros cur H; [exact H|].
  simpl. apply IH. clear IH. revert cur H.
  induction sub as [|m sub IH]; intros cur H; [exact H|].
  simpl. apply IH. destruct (lookup t m) as [rep|] eqn:E; [|exact H].
  apply Hstep; [exact (lookup_Some _ _ _ E) | exact H].
Qed.

Lemma replaceEach_invariant (Inv : gostring -> Prop) wrapper visit :
  (forall cur e, In e visit -> Inv cur -> Inv (ReplaceAll cur (fst e) (wrapper (snd e)))) ->
  forall cur, Inv cur -> Inv (replaceEach wrapper visit cur).
Proof.
  induction visit as [|e visit IH]; intros Hstep cur H; [exact H|].
  rewrite replaceEach_cons. apply IH.
  - intros cur' e' He'. apply Hstep. right. exact He'.
  - apply Hstep; [left; reflexivity | exact H].
Qed.

Lemma compoundsShape_ok : compoundsShape = true.
Proof. vm_compute. reflexivity. Qed.

Lemma compoundsShape_spec k v :
  In (k, v) compounds ->
  v <> [] /\ forallb isAlphaNum v = true /\ Forall (fun r => Kannada r = true) k
  /\ (forall m, isModifier m = true ->
        lookup compounds (k ++ [m]) = None /\ lookup compounds [m] = None).
Proof.
  intros Hk. pose proof compoundsShape_ok as H. unfold compoundsShape in H.
  rewrite forallb_forall in H. specialize (H _ Hk). cbn [fst snd] in H.
  rewrite !andb_true_iff in H. destruct H as [[[H1 H2] H3] H4].
  split; [|split; [exact H2|split]].
  - intros E. rewrite E in H1. discriminate.
  - apply Forall_forall. rewrite forallb_forall in H3. exact H3.
  - intros m Hm. unfold isModifier in Hm. apply existsb_exists in Hm.
    destruct Hm as (e & He & E). apply eqRunes_eq in E.
    rewrite forallb_forall in H4. specialize (H4 [m]).
    rewrite <- E in H4. specialize (H4 (in_map fst _ _ He)). rewrite E in H4.
    destruct (lookup compounds (k ++ [m])), (lookup compounds [m]);
      try discriminate. split; reflexivity.
Qed.

Lemma compound_code k v rep :
  In (k, v) compounds -> In (k, rep) compounds -> rep = v.
Proof.
  intros Hv Hrep.
  assert (Hnd : NoDup (keysOf compounds))
    by (apply distinct_NoDup, tables_distinct).
  apply (In_lookup _ _ _ Hnd) in Hv. apply (In_lookup _ _ _ Hnd) in Hrep. congruence.
Qed.

Lemma compound_ASCII g rep :
  In (g, rep) compounds ->
  g <> [] /\ Forall (fun r => isASCII r = false) g /\ Forall (fun r => isASCII r = true) rep.
Proof.
  intros Hg. destruct tables_wellFormed as (_ & _ & Hwf & _).
  rewrite forallb_forall in Hwf. exact (wellFormedEntry_spec _ (Hwf _ Hg)).
Qed.

(** The match at the front of a compound followed by a modifier. *)
Lemma matchAt_compound_modifier k v m post :
  In (k, v) compounds -> isModifier m = true ->
  matchAt (modCompounds (encoder asWritten)) (k ++ m :: post)
  = Some [k ++ [m]; k ++ [m]; k; [m]].
Proof.
  intros Hk Hm. destruct tables_prefixFree as (_ & _ & Hpc & Hpm).
  change (modCompounds (encoder asWritten))
    with (ReGlyphMod (keysOf compounds) (keysOf modifiers)).
  cbn [matchAt].
  rewrite (tryAlts_only _ (keysOf compounds) (k ++ m :: post) k).
  - rewrite skipn_app_same.
    rewrite (tryAlts_only _ (keysOf modifiers) (m :: post) [m]); [reflexivity | | |].
    + unfold isModifier in Hm. apply existsb_exists in Hm.
      destruct Hm as (e & He & E). apply eqRunes_eq in E.
      rewrite <- E. apply (in_map fst). exact He.
    + simpl. rewrite N.eqb_refl. apply HasPrefix_nil_r.
    + intros b Hb Hpre. apply (prefixFree_only (keysOf modifiers) (m :: post)); auto.
      * unfold isModifier in Hm. apply existsb_exists in Hm.
        destruct Hm as (e & He & E). apply eqRunes_eq in E.
        rewrite <- E. apply (in_map fst). exact He.
      * simpl. rewrite N.eqb_refl. apply HasPrefix_nil_r.
  - apply (in_map fst _ _ Hk).
  - apply HasPrefix_app_same.
  - intros b Hb Hpre. apply (prefixFree_only (keysOf compounds) (k ++ m :: post)); auto.
    + apply (in_map fst _ _ Hk).
    + apply HasPrefix_app_same.
Qed.

Lemma leading_step_modified k v :
  In (k, v) compounds ->
  forall cur g rep, In (g, rep) compounds ->
    leading k v cur -> leading k v (ReplaceAll cur g rep).
Proof.
  intros Hk cur g rep Hg H.
  destruct (compoundsShape_spec g rep Hg) as (Hne & _).
  destruct (compound_ASCII g rep Hg) as (_ & _ & Ha).
  apply (leading_ReplaceAll k v g rep); auto.
  intros ->. left. eapply compound_code; eassumption.
Qed.

(** After the pass over compounds followed by a modifier. *)
Lemma leading_modified nr k v post :
  In (k, v) compounds ->
  leading k v (replaceModifiedGlyphs (k ++ post) compounds (modCompounds (encoder nr))).
Proof.
  intros Hk.
  destruct (replaceModifiedGlyphs_encoder nr (k ++ post)) as (-> & _).
  rewrite replaceModifiedGlyphs_applyMatches.
  destruct (compoundsShape_spec k v Hk) as (Hvne & _ & _ & Hmod).
  destruct (compound_ASCII k v Hk) as (Hkne & Hkn & Hva).
  destruct (startsWithModifier post) eqn:E.
  - destruct post as [|m post]; [discriminate|]. simpl in E.
    destruct (Hmod m E) as (L1 & L2).
    assert (F : exists rest,
      FindAllStringSubmatch (modCompounds (encoder asWritten)) (k ++ m :: post)
      = [k ++ [m]; k ++ [m]; k; [m]] :: rest).
    { unfold FindAllStringSubmatch. destruct k as [|c k]; [congruence|].
      simpl app. simpl length. cbn [findFrom].
      change (c :: k ++ m :: post) with ((c :: k) ++ m :: post).
      rewrite (matchAt_compound_modifier (c :: k) v m post Hk E).
      eexists. reflexivity. }
    destruct F as (rest & ->).
    unfold applyMatches. cbn [fold_left]. rewrite L1, L2.
    assert (Hnd : NoDup (keysOf compounds)) by (apply distinct_NoDup, tables_distinct).
    rewrite (In_lookup _ _ _ Hnd Hk).
    apply (applyMatches_invariant (leading k v) compounds rest).
    + apply leading_step_modified. exact Hk.
    + left. destruct k as [|c k]; [congruence|]. simpl app.
      rewrite (ReplaceAll_cons (c :: k) v Hkne).
      change (c :: k ++ m :: post) with ((c :: k) ++ m :: post).
      rewrite HasPrefix_app_same. apply HasPrefix_app_same.
  - apply applyMatches_invariant.
    + apply leading_step_modified. exact Hk.
    + right. right. split; [apply HasPrefix_app_same|].
      rewrite skipn_app_same. exact E.
Qed.

Lemma HasPrefix_Contains s k : HasPrefix s k = true -> Contains s k = true.
Proof.
  intros H. destruct s as [|c s].
  - change (Contains [] k) with (HasPrefix [] k || false). rewrite H. reflexivity.
  - rewrite Contains_cons, H. reflexivity.
Qed.

(** After the loop over [compounds] the word begins with the code. *)
Lemma coded_compoundPasses nr cr k v post :
  In (k, v) compounds ->
  coded v (replaceGrouped (rangeCompounds cr)
             (replaceModifiedGlyphs (k ++ post) compounds (modCompounds (encoder nr)))).
Proof.
  intros Hk. rewrite replaceGrouped_each.
  set (w := replaceModifiedGlyphs _ _ _).
  assert (Hw : leading k v w) by (apply leading_modified; exact Hk).
  assert (Hperm := rangeCompounds_perm cr).
  assert (Hvisit : forall e, In e (rangeCompounds cr) -> In e compounds).
  { intros e He. apply Permutation_sym in Hperm. exact (Permutation_in _ Hperm He). }
  assert (L : leading k v (replaceEach braced (rangeCompounds cr) w)).
  { apply replaceEach_invariant; [|exact Hw].
    intros cur [g rep] He H. cbn [fst snd]. apply Hvisit in He.
    destruct (compound_ASCII g rep He) as (_ & _ & Ha).
    apply (leading_ReplaceAll k v g rep); auto using braced_nonempty, braced_ASCII.
    intros ->. right. f_equal. eapply compound_code; eassumption. }
  destruct L as [L | [L | [L _]]]; [left; exact L | right; exact L |].
  exfalso. apply HasPrefix_Contains in L.
  assert (G : Contains (replaceEach braced (rangeCompounds cr) w) (fst (k, v)) = false).
  { apply (replaceEach_gone braced braced_ASCII braced_nonempty).
    - apply (forallb_Permutation wellFormedEntry compounds);
        [apply tables_wellFormed | exact Hperm].
    - exact (Permutation_in _ Hperm Hk). }
  simpl in G. congruence.
Qed.

Lemma coded_ReplaceAll v g new cur :
  Forall (fun r => isASCII r = true) v ->
  g <> [] -> Forall (fun r => isASCII r = false) g ->
  coded v cur -> coded v (ReplaceAll cur g new).
Proof.
  intros Hv Hg Hgn [H | H].
  - left. rewrite (HasPrefix_split v cur H), ReplaceAll_ASCII_prefix by assumption.
    apply HasPrefix_app_same.
  - right. rewrite (HasPrefix_split _ cur H), ReplaceAll_ASCII_prefix
      by auto using braced_ASCII.
    apply HasPrefix_app_same.
Qed.

Lemma coded_applyMatches v t found cur :
  Forall (fun r => isASCII r = true) v -> forallb wellFormedEntry t = true ->
  coded v cur -> coded v (applyMatches t found cur).
Proof.
  intros Hv Hwf. apply applyMatches_invariant. intros c g rep Hin.
  rewrite forallb_forall in Hwf.
  destruct (wellFormedEntry_spec _ (Hwf _ Hin)) as (Hg & Hgn & _).
  apply coded_ReplaceAll; assumption.
Qed.

Lemma coded_replaceEach v wrapper t visit cur :
  Forall (fun r => isASCII r = true) v -> forallb wellFormedEntry t = true ->
  Permutation t visit ->
  coded v cur -> coded v (replaceEach wrapper visit cur).
Proof.
  intros Hv Hwf HP. apply replaceEach_invariant. intros c e Hin.
  destruct (wellFormedEntry_spec _ (forallb_Permutation _ _ _ Hwf HP e Hin))
    as (Hg & Hgn & _).
  apply coded_ReplaceAll; assumption.
Qed.

Lemma filter_all (p : rune -> bool) s : forallb p s = true -> filter p s = s.
Proof.
  induction s as [|c s IH]; simpl; [reflexivity|].
  intros H. apply andb_true_iff in H. destruct H as [Hc Hs].
  rewrite Hc, IH by exact Hs. reflexivity.
Qed.

Lemma filter_braced v x :
  filter isAlphaNum (braced v ++ x) = filter isAlphaNum v ++ filter isAlphaNum x.
Proof.
  unfold braced. change (runes "{") with [123]. change (runes "}") with [125].
  rewrite <- !app_assoc, !filter_app. reflexivity.
Qed.

Lemma coded_alphanum v cur :
  forallb isAlphaNum v = true -> coded v cur ->
  HasPrefix (filter isAlphaNum cur) v = true.
Proof.
  intros Hv [H | H]; rewrite (HasPrefix_split _ cur H).
  - rewrite filter_app, filter_all by exact Hv. apply HasPrefix_app_same.
  - rewrite filter_braced, filter_all by exact Hv. apply HasPrefix_app_same.
Qed.

Lemma Kannada_not_space r : Kannada r = true -> IsSpace r = false.
Proof.
  unfold Kannada, IsSpace, between. intros H.
  rewrite ?orb_true_iff, ?andb_true_iff, ?N.leb_le in H.
  rewrite ?orb_false_iff, ?andb_false_iff, ?N.eqb_neq, ?N.leb_gt. lia.
Qed.

Lemma dropWhile_app_keep p (b : gostring) : forall a,
  dropWhile p b = b -> b <> [] -> exists a', dropWhile p (a ++ b) = a' ++ b.
Proof.
  intros a Hb Hne. induction a as [|x a IH].
  - exists []. exact Hb.
  - simpl. destruct (p x).
    + exact IH.
    + exists (x :: a). reflexivity.
Qed.

(** What the script filter leaves of a word that begins with a Kannada
    key still begins with it. *)
Lemma filtered_leading k post :
  k <> [] -> Forall (fun r => Kannada r = true) k ->
  exists post', filter Kannada (TrimSpace (k ++ post)) = k ++ post'.
Proof.
  intros Hne Hk. unfold TrimSpace.
  assert (D : forall t, t <> [] -> Forall (fun r => Kannada r = true) t ->
                        forall u, dropWhile IsSpace (t ++ u) = t ++ u).
  { intros t Ht HK u. destruct HK as [|c t Hc HK]; [congruence|].
    simpl. rewrite (Kannada_not_space c Hc). reflexivity. }
  rewrite (D k Hne Hk). rewrite rev_app_distr.
  destruct (dropWhile_app_keep IsSpace (rev k) (rev post)) as (a' & ->).
  - rewrite <- (app_nil_r (rev k)) at 1 2. apply D.
    + intros E. apply (f_equal (@rev rune)) in E. rewrite rev_involutive in E.
      simpl in E. congruence.
    + apply Forall_rev. exact Hk.
  - intros E. apply (f_equal (@rev rune)) in E. rewrite rev_involutive in E.
    simpl in E. congruence.
  - rewrite rev_app_distr, rev_involutive, filter_app.
    exists (filter Kannada (rev a')). f_equal.
    apply filter_all. apply forallb_forall. rewrite Forall_forall in Hk. exact Hk.
Qed.

(** A word that begins with a compound: [key2] begins with its code. *)
Lemma process_leading_compound nr cr k v post :
  In (k, v) compounds ->
  HasPrefix (process pkg (encoder nr) cr (k ++ post)) v = true.
Proof.
  intros Hk.
  destruct (compoundsShape_spec k v Hk) as (_ & Halnum & HK & _).
  destruct (compound_ASCII k v Hk) as (Hkne & _ & Hva).
  destruct tables_wellFormed as (Hwv & Hwk & _ & Hwm).
  unfold process. rewrite regexNonTulu_filter, regexAlphaNum_filter.
  destruct (filtered_leading k post Hkne HK) as (post' & ->).
  apply coded_alphanum; [exact Halnum|].
  rewrite replacePlain_each, !replaceGrouped_each.
  apply (coded_replaceEach v _ modifiers); auto using rangeModifiers_perm.
  apply (coded_replaceEach v _ vowels); auto using rangeVowels_perm.
  apply (coded_replaceEach v _ consonants); auto using rangeConsonants_perm.
  rewrite !replaceModifiedGlyphs_applyMatches.
  apply coded_applyMatches; auto.
  apply coded_applyMatches; auto.
  exact (coded_compoundPasses nr cr k v post' Hk).
Qed.

(** ** Compounds before consonants *)

Lemma compoundPasses_gone nr cr input :
  Forall (fun e => Contains (compoundPasses pkg (encoder nr) cr input) (fst e) = false)
         compounds.
Proof.
  apply Forall_forall. intros e He. unfold compoundPasses. rewrite replaceGrouped_each.
  apply (replaceEach_gone braced braced_ASCII braced_nonempty).
  - apply (forallb_Permutation wellFormedEntry compounds);
      [apply tables_wellFormed | apply rangeCompounds_perm].
  - apply (Permutation_in _ (rangeCompounds_perm cr) He).
Qed.

Lemma NewEncode_key2 nr cr input key2 :
  oneCompound (afterModifiedCompounds input) = true ->
  process pkg (encoder asWritten) asWrittenCall input = key2 ->
  exists key0 key1, NewEncode Compile nr cr input = Ok (key0, key1, key2).
Proof.
  intros H1 H2.
  rewrite NewEncode_Compile, Encode_from_key2, (process_any_order nr cr input H1), H2.
  do 2 eexists. reflexivity.
Qed.

Lemma compounds_checked :
  forallb (fun e => compoundAlone e && forallb (compoundThen e) consonants) compounds = true.
Proof. vm_compute. reflexivity. Qed.

(** ** Patterns that do not compile *)

Lemma MustCompile_None compile p :
  compile p = None -> exists msg, MustCompile compile p = Panic msg.
Proof. intros H. unfold MustCompile. rewrite H. eexists. reflexivity. Qed.

(** tlphone.go: a package-level pattern that does not compile stops the
    program while its variables are initialised, and a pattern of [New]
    stops it in [New]; no word is encoded. *)
Theorem startup_fails_fast compile nr cr input p :
  In p (packagePatterns ++ newPatterns nr) -> compile p = None ->
  exists msg, NewEncode compile nr cr input = Panic msg.
Proof.
  intros Hin Hp. unfold NewEncode, initVars, New, MustCompile.
  simpl in Hin.
  destruct Hin as [<-|[<-|[<-|[<-|[<-|[<-|[<-|[]]]]]]]];
    repeat match goal with
           | |- context [compile ?q] =>
             lazymatch goal with
             | H : compile q = _ |- _ => rewrite H
             | _ => destruct (compile q) eqn:?
             end; cbn [bind]
           end;
    try (eexists; reflexivity); congruence.
Qed.

Lemma startup_fails_fast_witness :
  exists msg,
    NewEncode compileWithoutKannada asWritten asWrittenCall (runes "ತುಂಬಾ") = Panic msg.
Proof.
  apply (startup_fails_fast compileWithoutKannada asWritten asWrittenCall _ patNonTulu).
  - simpl. tauto.
  - reflexivity.
Defined.

(** C2, on the second copy: [[\P{Tulu}]] does not compile, the error is
    dropped, and every call of [Encode] panics on the nil pattern instead of
    returning three keys. *)
Theorem secondCopy_Encode_panics nr cr input :
  SecondCopy.NewEncode Compile nr cr input
  = Panic "invalid memory address or nil pointer dereference".
Proof. reflexivity. Qed.

(** C8, on the second copy: the pattern [[\P{Tulu}]] does not compile,
    yet startup completes: [regexNonTulu] is left holding whatever
    [regexp.Compile] returned, here nil; [New] goes through as well, and
    the failure is met only when a word is encoded. *)
Theorem secondCopy_startup_tolerates_failure :
  Compile SecondCopy.patNonTulu = None
  /\ (forall compile,
        SecondCopy.regexNonTulu (SecondCopy.initVars compile)
        = compile SecondCopy.patNonTulu)
  /\ SecondCopy.regexNonTulu (SecondCopy.initVars Compile) = None
  /\ (forall nr,
        SecondCopy.modCompounds (SecondCopy.New Compile nr)
        = Some (ReGlyphMod (keysOf (newCompounds nr)) (keysOf (newModifiers nr))))
  /\ (forall nr cr,
        SecondCopy.Encode (SecondCopy.initVars Compile) (SecondCopy.New Compile nr) cr
                          (runes "ತುಂಬಾ")
        = Panic "invalid memory address or nil pointer dereference").
Proof. repeat split. Qed.

(** * Further properties *)

(** ** Only the Kannada runes of the input matter *)

Lemma filter_dropWhile (p q : rune -> bool) s :
  (forall r, p r = true -> q r = false) -> filter q (dropWhile p s) = filter q s.
Proof.
  intros H. induction s as [|c s IH]; [reflexivity|]. simpl.
  destruct (p c) eqn:E; [|reflexivity]. rewrite (H c E). exact IH.
Qed.

Lemma filter_rev_rune (q : rune -> bool) s : filter q (rev s) = rev (filter q s).
Proof.
  induction s as [|c s IH]; [reflexivity|]. simpl.
  rewrite filter_app, IH. simpl. destruct (q c); simpl; [reflexivity|apply app_nil_r].
Qed.

Lemma space_not_Kannada r : IsSpace r = true -> Kannada r = false.
Proof.
  intros H. destruct (Kannada r) eqn:E; [|reflexivity].
  apply Kannada_not_space in E. congruence.
Qed.

Lemma filter_TrimSpace s : filter Kannada (TrimSpace s) = filter Kannada s.
Proof.
  unfold TrimSpace.
  rewrite filter_rev_rune, filter_dropWhile, filter_rev_rune, rev_involutive,
    filter_dropWhile by apply space_not_Kannada.
  reflexivity.
Qed.

Lemma filter_idem (q : rune -> bool) s : filter q (filter q s) = filter q s.
Proof.
  induction s as [|c s IH]; [reflexivity|]. simpl.
  destruct (q c) eqn:E; simpl; rewrite ?E, IH; reflexivity.
Qed.

Lemma process_Kannada k cr input :
  process pkg k cr input = process pkg k cr (filter Kannada input).
Proof.
  unfold process. rewrite !regexNonTulu_filter, !filter_TrimSpace, filter_idem.
  reflexivity.
Qed.

(** X6: whatever is not Kannada script, wherever it stands in the input, is
    as good as absent. *)
Theorem only_Kannada_matters nr cr input :
  NewEncode Compile nr cr input = NewEncode Compile nr cr (filter Kannada input).
Proof.
  rewrite !NewEncode_Compile, !Encode_from_key2, <- process_Kannada. reflexivity.
Qed.

(** ** From one key to the next *)

Lemma without_without a b ab s :
  (forall r, oneOf ab r = oneOf a r || oneOf b r) ->
  without a (without b s) = without ab s.
Proof.
  intros H. unfold without. induction s as [|c s IH]; [reflexivity|]. simpl.
  rewrite (H c). destruct (oneOf b c); simpl.
  - rewrite orb_true_r. exact IH.
  - rewrite orb_false_r. destruct (oneOf a c); simpl; rewrite IH; reflexivity.
Qed.

Lemma oneOf_key0_key1 r : oneOf "12456789" r = oneOf "1" r || oneOf "2456789" r.
Proof.
  change (oneOf "12456789" r) with (existsb (N.eqb r) [49; 50; 52; 53; 54; 55; 56; 57]).
  change (oneOf "2456789" r) with (existsb (N.eqb r) [50; 52; 53; 54; 55; 56; 57]).
  change (oneOf "1" r) with (existsb (N.eqb r) [49]).
  cbn [existsb]. rewrite !orb_false_r. reflexivity.
Qed.

(** X7: [key0] is [key1] without its digits 1: two words with the same
    [key2] have the same [key1], and with the same [key1] the same
    [key0]. *)
Theorem key0_from_key1 nr cr input :
  exists key0 key1 key2,
    NewEncode Compile nr cr input = Ok (key0, key1, key2)
    /\ key1 = without "2456789" key2
    /\ key0 = without "1" key1.
Proof.
  rewrite NewEncode_Compile, Encode_from_key2.
  do 3 eexists. split; [reflexivity|]. split; [reflexivity|].
  symmetry. apply without_without, oneOf_key0_key1.
Qed.

(** ** The loops over single-rune keys do not depend on the order *)

(** X5: the loops of [process] over [consonants], [vowels] and [modifiers]
    give the same string for every order in which the map is visited. *)
Theorem single_rune_loops_any_order cr input :
  replaceGrouped (rangeConsonants cr) input = replaceGrouped consonants input
  /\ replaceGrouped (rangeVowels cr) input = replaceGrouped vowels input
  /\ replacePlain (rangeModifiers cr) input = replacePlain modifiers input.
Proof.
  destruct tables_wellFormed as (Hwv & Hwk & _ & Hwm).
  destruct tables_singleRune as (Hsv & Hsk & Hsm).
  destruct tables_distinct as (Hdv & Hdk & _ & Hdm).
  split; [|split].
  - apply replaceGrouped_Permutation; auto using rangeConsonants_perm.
  - apply replaceGrouped_Permutation; auto using rangeVowels_perm.
  - apply replacePlain_Permutation; auto using rangeModifiers_perm.
Qed.

(** ** The length of the keys *)

Lemma weight_app a b : weight (a ++ b) = (weight a + weight b)%nat.
Proof. unfold weight. rewrite map_app, list_sum_app. reflexivity. Qed.

Lemma weight_ReplaceAll old new s :
  old <> [] -> (weight new <= weight old)%nat ->
  (weight (ReplaceAll s old new) <= weight s)%nat.
Proof.
  intros Hold Hw.
  induction s as [| c s Hhit IH | c s Hmiss IH] using (ReplaceAll_ind old Hold).
  - rewrite (ReplaceAll_nil_eq old new Hold). lia.
  - rewrite (ReplaceAll_cons old new Hold), Hhit, weight_app.
    rewrite (HasPrefix_split old (c :: s) Hhit) at 2. rewrite weight_app. lia.
  - rewrite (ReplaceAll_cons old new Hold), Hmiss.
    change (c :: ReplaceAll s old new) with ([c] ++ ReplaceAll s old new).
    change (c :: s) with ([c] ++ s). rewrite !weight_app. lia.
Qed.

Lemma lighter_spec wrapper t t' e :
  lighter wrapper t = true -> forallb wellFormedEntry t = true -> Permutation t t' ->
  In e t' -> fst e <> [] /\ (weight (wrapper (snd e)) <= weight (fst e))%nat.
Proof.
  intros Hl Hwf HP He.
  destruct (wellFormedEntry_spec e (forallb_Permutation _ _ _ Hwf HP e He)) as (Hne & _).
  split; [exact Hne|].
  apply Nat.leb_le. exact (forallb_Permutation _ _ _ Hl HP e He).
Qed.

Lemma weight_replaceEach wrapper t visit cur n :
  lighter wrapper t = true -> forallb wellFormedEntry t = true -> Permutation t visit ->
  (weight cur <= n)%nat -> (weight (replaceEach wrapper visit cur) <= n)%nat.
Proof.
  intros Hl Hwf HP.
  apply (replaceEach_invariant (fun s => (weight s <= n)%nat)).
  intros c e He Hc.
  destruct (lighter_spec wrapper t visit e Hl Hwf HP He) as (Hne & Hw).
  pose proof (weight_ReplaceAll (fst e) (wrapper (snd e)) c Hne Hw). lia.
Qed.

Lemma weight_applyMatches t found cur n :
  lighter (fun v => v) t = true -> forallb wellFormedEntry t = true ->
  (weight cur <= n)%nat -> (weight (applyMatches t found cur) <= n)%nat.
Proof.
  intros Hl Hwf.
  apply (applyMatches_invariant (fun s => (weight s <= n)%nat)).
  intros c g rep Hin Hc.
  destruct (lighter_spec (fun v => v) t t (g, rep) Hl Hwf (Permutation_refl _) Hin)
    as (Hne & Hw).
  pose proof (weight_ReplaceAll g rep c Hne Hw). lia.
Qed.

Lemma tables_lighter :
  lighter (fun v => v) compounds = true /\ lighter braced compounds = true
  /\ lighter (fun v => v) consonants = true /\ lighter braced consonants = true
  /\ lighter (fun v => v) vowels = true /\ lighter braced vowels = true
  /\ lighter (fun v => v) modifiers = true.
Proof. repeat split. Qed.

Lemma length_alphanum_weight s : (length (filter isAlphaNum s) <= weight s)%nat.
Proof.
  induction s as [|c s IH]; [simpl; lia|].
  change (c :: s) with ([c] ++ s). rewrite filter_app, length_app, weight_app.
  unfold weight at 1. simpl. unfold cost. destruct (isAlphaNum c); simpl; lia.
Qed.

Lemma weight_Kannada s :
  Forall (fun r => Kannada r = true) s -> weight s = (2 * length s)%nat.
Proof.
  induction 1 as [|c s Hc Hs IH]; [reflexivity|].
  change (c :: s) with ([c] ++ s). rewrite weight_app, IH.
  assert (E : weight [c] = 2%nat).
  { unfold weight, cost. simpl.
    assert (isAlphaNum c = false /\ isASCII c = false) as [-> ->]; [|reflexivity].
    revert Hc. unfold Kannada, isAlphaNum, isDigit, isUpper, isASCII, between, chr.
    change (N_of_ascii "0") with 48. change (N_of_ascii "9") with 57.
    change (N_of_ascii "A") with 65. change (N_of_ascii "Z") with 90.
    rewrite ?orb_true_iff, ?andb_true_iff, ?N.leb_le, ?orb_false_iff, ?andb_false_iff,
      ?N.leb_gt, ?N.ltb_ge. lia. }
  rewrite E. simpl. lia.
Qed.

Lemma length_process nr cr input :
  (length (process pkg (encoder nr) cr input) <= 2 * length (filter Kannada input))%nat.
Proof.
  destruct tables_lighter as (L1 & L2 & L3 & L4 & L5 & L6 & L7).
  destruct tables_wellFormed as (Hwv & Hwk & Hwc & Hwm).
  unfold process. rewrite regexNonTulu_filter, regexAlphaNum_filter, filter_TrimSpace.
  etransitivity; [apply length_alphanum_weight|].
  rewrite replacePlain_each, !replaceGrouped_each, !replaceModifiedGlyphs_applyMatches.
  apply (weight_replaceEach _ modifiers); auto using rangeModifiers_perm.
  apply (weight_replaceEach _ vowels); auto using rangeVowels_perm.
  apply (weight_replaceEach _ consonants); auto using rangeConsonants_perm.
  apply weight_applyMatches; auto.
  apply weight_applyMatches; auto.
  apply (weight_replaceEach _ compounds); auto using rangeCompounds_perm.
  apply weight_applyMatches; auto.
  rewrite weight_Kannada; [lia|].
  apply Forall_forall. intros r Hr. apply filter_In in Hr. tauto.
Qed.

Lemma length_without set s : (length (without set s) <= length s)%nat.
Proof. apply filter_length_le. Qed.

(** X8: no key is longer than twice the number of Kannada runes of the
    input, and each key is at most as long as the next. *)
Theorem key_length nr cr input :
  exists key0 key1 key2,
    NewEncode Compile nr cr input = Ok (key0, key1, key2)
    /\ (length key0 <= length key1 <= length key2)%nat
    /\ (length key2 <= 2 * length (filter Kannada input))%nat.
Proof.
  rewrite NewEncode_Compile, Encode_from_key2.
  do 3 eexists. split; [reflexivity|].
  split; [|apply length_process]. split; [|apply length_without].
  rewrite <- (without_without "1" "2456789" "12456789");
    [apply length_without | apply oneOf_key0_key1].
Qed.

(** ** Words without compounds *)

Lemma tryAlts_Some_prefix {A} (k : gostring -> gostring -> option A) alts s r :
  tryAlts alts s k = Some r -> exists a, In a alts /\ HasPrefix s a = true.
Proof.
  induction alts as [|a alts IH]; simpl; [discriminate|].
  destruct (HasPrefix s a) eqn:E.
  - intros _. exists a. split; [left; reflexivity | exact E].
  - intros H. destruct (IH H) as (b & Hb & Hp). exists b. split; [right|]; assumption.
Qed.

Lemma Contains_tail c s k : Contains (c :: s) k = false -> Contains s k = false.
Proof. rewrite Contains_cons. intros H. apply orb_false_iff in H. tauto. Qed.

Lemma Contains_head s k : Contains s k = false -> HasPrefix s k = false.
Proof.
  destruct s as [|c s]; intros H.
  - change (Contains [] k) with (HasPrefix [] k || false) in H.
    apply orb_false_iff in H. tauto.
  - rewrite Contains_cons in H. apply orb_false_iff in H. tauto.
Qed.

(** Where no glyph occurs the matcher finds nothing. *)
Lemma findFrom_none glyphs mods : forall fuel s,
  (forall g, In g glyphs -> Contains s g = false) ->
  findFrom fuel (ReGlyphMod glyphs mods) s = [].
Proof.
  induction fuel as [|fuel IH]; intros s H; [reflexivity|].
  destruct s as [|c s]; [reflexivity|]. cbn [findFrom].
  destruct (matchAt (ReGlyphMod glyphs mods) (c :: s)) as [sub|] eqn:E.
  - exfalso. cbn [matchAt] in E. apply tryAlts_Some_prefix in E.
    destruct E as (g & Hg & Hp). apply H, Contains_head in Hg. congruence.
  - apply IH. intros g Hg. exact (Contains_tail c s g (H g Hg)).
Qed.

Lemma noCompound_spec s e :
  noCompound s = true -> In e compounds -> Contains s (fst e) = false.
Proof.
  unfold noCompound. rewrite forallb_forall. intros H He.
  apply negb_true_iff. exact (H e He).
Qed.

(** Without a compound in it, the word leaves the passes over
    [compounds] as it came. *)
Lemma compoundPasses_noCompound nr cr s :
  noCompound s = true ->
  replaceGrouped (rangeCompounds cr)
    (replaceModifiedGlyphs s compounds (modCompounds (encoder nr))) = s.
Proof.
  intros H.
  assert (Hperm := rangeCompounds_perm cr).
  assert (HF : replaceModifiedGlyphs s compounds (modCompounds (encoder nr)) = s).
  { unfold replaceModifiedGlyphs, FindAllStringSubmatch. cbn [modCompounds encoder].
    rewrite findFrom_none; [reflexivity|].
    intros g Hg. apply in_map_iff in Hg. destruct Hg as (e & <- & He).
    apply noCompound_spec; [exact H|].
    apply Permutation_sym in Hperm.
    exact (Permutation_in _ (Permutation_sym (newCompounds_perm nr)) He). }
  rewrite HF, replaceGrouped_each.
  apply (replaceEach_none braced).
  - apply (forallb_Permutation wellFormedEntry compounds);
      [apply tables_wellFormed | exact Hperm].
  - intros e He. apply noCompound_spec; [exact H|].
    exact (Permutation_in _ (Permutation_sym Hperm) He).
Qed.

Lemma filter_flat_map (q : rune -> bool) (f : rune -> gostring) s :
  filter q (flat_map f s) = flat_map (fun c => filter q (f c)) s.
Proof.
  induction s as [|c s IH]; [reflexivity|]. simpl. rewrite filter_app, IH. reflexivity.
Qed.

(** The last three loops and the final filter, rune by rune. *)
Lemma finish_eventuallyIn tk tv tm vk vv vm w :
  forallb wellFormedEntry tk = true -> forallb singleRuneKey tk = true ->
  distinct (keysOf tk) = true -> Permutation tk vk ->
  forallb wellFormedEntry tv = true -> forallb singleRuneKey tv = true ->
  distinct (keysOf tv) = true -> Permutation tv vv ->
  forallb wellFormedEntry tm = true -> forallb singleRuneKey tm = true ->
  distinct (keysOf tm) = true -> Permutation tm vm ->
  filter isAlphaNum (replacePlain vm (replaceGrouped vv (replaceGrouped vk w)))
  = flat_map (eventuallyIn tk tv tm) w.
Proof.
  intros Hwk Hsk Hdk Hpk Hwv Hsv Hdv Hpv Hwm Hsm Hdm Hpm.
  rewrite (replaceGrouped_Permutation tk vk), (replaceGrouped_Permutation tv vv),
          (replacePlain_Permutation tm vm) by assumption.
  rewrite replacePlain_each, !replaceGrouped_each.
  rewrite (replaceEach_substAll (fun v => v) (fun v H => H) tm),
          (replaceEach_substAll braced braced_ASCII tv),
          (replaceEach_substAll braced braced_ASCII tk);
    try (apply forallb_forall; assumption).
  unfold substAll at 1 2 3. rewrite !flat_map_flat_map, filter_flat_map.
  apply flat_map_ext. intros c. unfold eventuallyIn, substAll.
  rewrite flat_map_flat_map. reflexivity.
Qed.

Lemma finish_eventually cr w :
  filter isAlphaNum
    (replacePlain (rangeModifiers cr)
       (replaceGrouped (rangeVowels cr) (replaceGrouped (rangeConsonants cr) w)))
  = flat_map eventually w.
Proof.
  destruct tables_wellFormed as (Hwv & Hwk & _ & Hwm).
  destruct tables_singleRune as (Hsv & Hsk & Hsm).
  destruct tables_distinct as (Hdv & Hdk & _ & Hdm).
  exact (finish_eventuallyIn consonants vowels modifiers _ _ _ w
           Hwk Hsk Hdk (rangeConsonants_perm cr)
           Hwv Hsv Hdv (rangeVowels_perm cr)
           Hwm Hsm Hdm (rangeModifiers_perm cr)).
Qed.

Lemma tables_sameEventually :
  sameEventually consonants = true /\ sameEventually vowels = true.
Proof. split; vm_compute; reflexivity. Qed.

(** The passes over modified consonants and vowels change nothing that
    the end of [process] will see. *)
Lemma eventually_applyMatches t found cur :
  sameEventually t = true ->
  flat_map eventually (applyMatches t found cur) = flat_map eventually cur.
Proof.
  intros Hs.
  apply (applyMatches_invariant
           (fun s => flat_map eventually s = flat_map eventually cur)); [|reflexivity].
  intros c g rep Hin <-.
  unfold sameEventually in Hs. rewrite forallb_forall in Hs.
  specialize (Hs _ Hin). cbn [fst snd] in Hs.
  destruct g as [|a [|]]; try discriminate. apply eqRunes_eq in Hs.
  rewrite ReplaceAll_rune, flat_map_flat_map. apply flat_map_ext. intros x.
  destruct (N.eqb_spec x a) as [-> | _]; [exact Hs | simpl; apply app_nil_r].
Qed.

Lemma tables_codesAlphaNum :
  codesAlphaNum consonants = true /\ codesAlphaNum vowels = true
  /\ codesAlphaNum modifiers = true.
Proof. repeat split. Qed.

Lemma code_facts t c v :
  forallb wellFormedEntry t = true -> codesAlphaNum t = true ->
  lookup t [c] = Some v ->
  Forall (fun r => isASCII r = true) v /\ filter isAlphaNum v = v.
Proof.
  intros Hwf Ha E. apply lookup_Some in E.
  rewrite forallb_forall in Hwf.
  destruct (wellFormedEntry_spec _ (Hwf _ E)) as (_ & _ & Hv). split; [exact Hv|].
  unfold codesAlphaNum in Ha. rewrite forallb_forall in Ha.
  apply filter_all. exact (Ha _ E).
Qed.

Lemma eventually_codeOf c : isASCII c = false -> eventually c = codeOf c.
Proof.
  intros Hc.
  destruct tables_wellFormed as (Hwv & Hwk & _ & Hwm).
  destruct tables_codesAlphaNum as (Hak & Hav & Ham).
  assert (Wv := proj1 (forallb_forall _ _) Hwv).
  assert (Wm := proj1 (forallb_forall _ _) Hwm).
  unfold eventually, eventuallyIn, codeOf, substRune.
  destruct (lookup consonants [c]) as [v|] eqn:Ek.
  - destruct (code_facts consonants c v Hwk Hak Ek) as (Hv & Hf).
    rewrite (substAll_ASCII braced vowels), (substAll_ASCII (fun v => v) modifiers)
      by auto using braced_ASCII.
    rewrite <- (app_nil_r (braced v)), filter_braced, Hf. apply app_nil_r.
  - unfold substAll at 2. cbn [flat_map]. rewrite app_nil_r. unfold substRune.
    destruct (lookup vowels [c]) as [v|] eqn:Ev.
    + destruct (code_facts vowels c v Hwv Hav Ev) as (Hv & Hf).
      rewrite (substAll_ASCII (fun v => v) modifiers) by auto using braced_ASCII.
      rewrite <- (app_nil_r (braced v)), filter_braced, Hf. apply app_nil_r.
    + unfold substAll. cbn [flat_map]. rewrite app_nil_r. unfold substRune.
      destruct (lookup modifiers [c]) as [v|] eqn:Em.
      * exact (proj2 (code_facts modifiers c v Hwm Ham Em)).
      * simpl. replace (isAlphaNum c) with false; [reflexivity|].
        symmetry. revert Hc. unfold isASCII, isAlphaNum, isDigit, isUpper, between, chr.
        change (N_of_ascii "0") with 48. change (N_of_ascii "9") with 57.
        change (N_of_ascii "A") with 65. change (N_of_ascii "Z") with 90.
        rewrite ?orb_false_iff, ?andb_false_iff, ?N.leb_gt, ?N.ltb_ge. lia.
Qed.

Lemma Kannada_not_ASCII r : Kannada r = true -> isASCII r = false.
Proof.
  unfold Kannada, isASCII, between.
  rewrite ?orb_true_iff, ?andb_true_iff, ?N.leb_le, ?N.ltb_ge. lia.
Qed.

Lemma flat_map_agree (f g : rune -> gostring) (P : rune -> Prop) s :
  (forall c, P c -> f c = g c) -> Forall P s -> flat_map f s = flat_map g s.
Proof.
  intros H. induction 1 as [|c s Hc Hs IH]; [reflexivity|].
  simpl. rewrite (H c Hc), IH. reflexivity.
Qed.

Lemma filter_Forall_true (q : rune -> bool) s : Forall (fun r => q r = true) (filter q s).
Proof. apply Forall_forall. intros r Hr. apply filter_In in Hr. tauto. Qed.

Lemma process_transliterate nr cr input :
  noCompound (filter Kannada input) = true ->
  process pkg (encoder nr) cr input = transliterate (filter Kannada input).
Proof.
  intros H. destruct tables_sameEventually as (Sk & Sv).
  unfold process. rewrite regexNonTulu_filter, regexAlphaNum_filter, filter_TrimSpace.
  rewrite (compoundPasses_noCompound nr cr _ H).
  rewrite finish_eventually, !replaceModifiedGlyphs_applyMatches.
  rewrite !eventually_applyMatches by assumption.
  apply (flat_map_agree _ _ (fun r => Kannada r = true)); [|apply filter_Forall_true].
  intros c Hc. apply eventually_codeOf, Kannada_not_ASCII, Hc.
Qed.

(** X9: a word in which no compound occurs is spelled out rune by rune:
    [key2] is the codes of its Kannada runes, one after the other. *)
Theorem compound_free_words nr cr input :
  noCompound (filter Kannada input) = true ->
  NewEncode Compile nr cr input
  = Ok (without "12456789" (transliterate (filter Kannada input)),
        without "2456789" (transliterate (filter Kannada input)),
        transliterate (filter Kannada input)).
Proof.
  intros H. rewrite NewEncode_Compile, Encode_from_key2, (process_transliterate nr cr _ H).
  reflexivity.
Qed.

Lemma compound_free_words_witness :
  NewEncode Compile asWritten asWrittenCall (runes "ಅನುಗ್ರಹ")
  = Ok (without "12456789" (transliterate (filter Kannada (runes "ಅನುಗ್ರಹ"))),
        without "2456789" (transliterate (filter Kannada (runes "ಅನುಗ್ರಹ"))),
        transliterate (filter Kannada (runes "ಅನುಗ್ರಹ"))).
Proof. apply compound_free_words. vm_compute. reflexivity. Defined.

(** ** Words put together *)

Lemma HasPrefix_app_l s t k : HasPrefix s k = true -> HasPrefix (s ++ t) k = true.
Proof.
  revert s. induction k as [|x k IH]; intros s H; [apply HasPrefix_nil_r|].
  destruct s as [|c s]; [discriminate|]. simpl in *.
  apply andb_true_iff in H. destruct H as [-> H]. simpl. apply IH, H.
Qed.

Lemma Contains_app_l s t k : Contains s k = true -> Contains (s ++ t) k = true.
Proof.
  induction s as [|c s IH]; intros H.
  - change (Contains [] k) with (HasPrefix [] k || false) in H.
    rewrite orb_false_r in H. destruct k; [|discriminate].
    destruct t; reflexivity.
  - simpl app. rewrite Contains_cons in *. apply orb_true_iff in H.
    apply orb_true_iff. destruct H as [H | H].
    + left. exact (HasPrefix_app_l (c :: s) t k H).
    + right. exact (IH H).
Qed.

Lemma Contains_app_r s t k : Contains t k = true -> Contains (s ++ t) k = true.
Proof.
  intros H. induction s as [|c s IH]; [exact H|].
  simpl app. rewrite Contains_cons, IH. apply orb_true_r.
Qed.

Lemma noCompound_app s t :
  noCompound (s ++ t) = true -> noCompound s = true /\ noCompound t = true.
Proof.
  unfold noCompound. rewrite !forallb_forall. intros H.
  split; intros e He; specialize (H e He); apply negb_true_iff in H; apply negb_true_iff.
  - destruct (Contains s (fst e)) eqn:E; [|reflexivity].
    apply (Contains_app_l s t) in E. congruence.
  - destruct (Contains t (fst e)) eqn:E; [|reflexivity].
    apply (Contains_app_r s t) in E. congruence.
Qed.

Lemma without_app set a b : without set (a ++ b) = without set a ++ without set b.
Proof. apply filter_app. Qed.

Lemma transliterate_app a b : transliterate (a ++ b) = transliterate a ++ transliterate b.
Proof. apply flat_map_app. Qed.

(** X10: when no compound occurs in two words put end to end, not even across
    the seam, each key of the whole is the key of the first word followed
    by the key of the second. *)
Theorem keys_concatenate nr cr a b :
  noCompound (filter Kannada (a ++ b)) = true ->
  exists a0 a1 a2 b0 b1 b2,
    NewEncode Compile nr cr a = Ok (a0, a1, a2)
    /\ NewEncode Compile nr cr b = Ok (b0, b1, b2)
    /\ NewEncode Compile nr cr (a ++ b) = Ok (a0 ++ b0, a1 ++ b1, a2 ++ b2).
Proof.
  intros H. pose proof H as H'. rewrite filter_app in H'.
  apply noCompound_app in H'. destruct H' as [Ha Hb].
  rewrite !NewEncode_Compile, !Encode_from_key2.
  rewrite (process_transliterate nr cr _ H), (process_transliterate nr cr _ Ha),
          (process_transliterate nr cr _ Hb).
  rewrite filter_app, transliterate_app, !without_app.
  do 6 eexists. repeat split.
Qed.

Lemma keys_concatenate_witness :
  exists a0 a1 a2 b0 b1 b2,
    NewEncode Compile asWritten asWrittenCall (runes "ತುಂ") = Ok (a0, a1, a2)
    /\ NewEncode Compile asWritten asWrittenCall (runes "ಬಾ") = Ok (b0, b1, b2)
    /\ NewEncode Compile asWritten asWrittenCall (runes "ತುಂ" ++ runes "ಬಾ")
       = Ok (a0 ++ b0, a1 ++ b1, a2 ++ b2).
Proof. apply keys_concatenate. vm_compute. reflexivity. Defined.

(** ** Signs that the broader keys ignore *)

Lemma flat_map_filter_silent (f : rune -> gostring) (keep : rune -> bool) s :
  (forall c, keep c = false -> f c = []) ->
  flat_map f (filter keep s) = flat_map f s.
Proof.
  intros H. induction s as [|c s IH]; [reflexivity|]. simpl.
  destruct (keep c) eqn:E; simpl; rewrite IH; [reflexivity|].
  rewrite (H c E). reflexivity.
Qed.

Lemma filter_comm (p q : rune -> bool) s : filter p (filter q s) = filter q (filter p s).
Proof.
  induction s as [|c s IH]; [reflexivity|]. simpl.
  destruct (p c) eqn:P, (q c) eqn:Q; simpl; rewrite ?P, ?Q, IH; reflexivity.
Qed.

Lemma silentSigns_silent :
  forallb (fun c => eqRunes (without "2456789" (codeOf c)) []) silentSigns = true
  /\ forallb (fun e => existsb (fun c => existsb (N.eqb c) silentSigns) (fst e)) compounds
     = true.
Proof. split; vm_compute; reflexivity. Qed.

Lemma Contains_In s k r : Contains s k = true -> In r k -> In r s.
Proof.
  intros H Hr. induction s as [|c s IH].
  - change (Contains [] k) with (HasPrefix [] k || false) in H. rewrite orb_false_r in H.
    destruct k; [destruct Hr | discriminate].
  - rewrite Contains_cons in H. apply orb_true_iff in H. destruct H as [H | H].
    + rewrite (HasPrefix_split k (c :: s) H). apply in_or_app. left. exact Hr.
    + right. exact (IH H).
Qed.

Lemma withoutSigns_noCompound s : noCompound (withoutSigns s) = true.
Proof.
  unfold noCompound. apply forallb_forall. intros e He. apply negb_true_iff.
  destruct (Contains (withoutSigns s) (fst e)) eqn:E; [|reflexivity]. exfalso.
  destruct silentSigns_silent as (_ & H). rewrite forallb_forall in H.
  specialize (H e He). apply existsb_exists in H. destruct H as (c & Hc & Hs).
  apply (Contains_In _ _ c E) in Hc. unfold withoutSigns in Hc.
  apply filter_In in Hc. destruct Hc as [_ Hc]. rewrite Hs in Hc. discriminate.
Qed.

Lemma silent_code c :
  negb (existsb (N.eqb c) silentSigns) = false -> without "2456789" (codeOf c) = [].
Proof.
  intros H. apply negb_false_iff, existsb_exists in H. destruct H as (x & Hx & E).
  apply N.eqb_eq in E. subst x.
  destruct silentSigns_silent as (H & _). rewrite forallb_forall in H.
  apply eqRunes_eq. exact (H c Hx).
Qed.

(** X11: in a word without compounds the vowel signs, the visarga and the
    virama may be left out or put in: [key1] and [key0] stay the same. *)
Theorem signs_ignored nr cr input :
  noCompound (filter Kannada input) = true ->
  exists key0 key1 key2 key2',
    NewEncode Compile nr cr input = Ok (key0, key1, key2)
    /\ NewEncode Compile nr cr (withoutSigns input) = Ok (key0, key1, key2').
Proof.
  intros H.
  assert (H' : noCompound (filter Kannada (withoutSigns input)) = true).
  { unfold withoutSigns. rewrite filter_comm. apply withoutSigns_noCompound. }
  rewrite !NewEncode_Compile, !Encode_from_key2.
  rewrite (process_transliterate nr cr _ H), (process_transliterate nr cr _ H').
  assert (E1 : without "2456789" (transliterate (filter Kannada (withoutSigns input)))
               = without "2456789" (transliterate (filter Kannada input))).
  { unfold withoutSigns. rewrite filter_comm. unfold without, transliterate.
    rewrite !filter_flat_map. apply flat_map_filter_silent. exact silent_code. }
  assert (E0 : without "12456789" (transliterate (filter Kannada (withoutSigns input)))
               = without "12456789" (transliterate (filter Kannada input))).
  { rewrite <- !(without_without "1" "2456789" "12456789") by apply oneOf_key0_key1.
    rewrite E1. reflexivity. }
  rewrite E0, E1. do 4 eexists. split; reflexivity.
Qed.

Lemma signs_ignored_witness :
  exists key0 key1 key2 key2',
    NewEncode Compile asWritten asWrittenCall (runes "ತುಂಬಾ") = Ok (key0, key1, key2)
    /\ NewEncode Compile asWritten asWrittenCall (withoutSigns (runes "ತುಂಬಾ"))
       = Ok (key0, key1, key2').
Proof. apply signs_ignored. vm_compute. reflexivity. Defined.

(** ** What the pass over modified glyphs leaves *)

Lemma applyMatches_concat t found cur :
  applyMatches t found cur = fold_left (replaceIfGlyph t) (concat found) cur.
Proof.
  unfold applyMatches. revert cur.
  induction found as [|sub found IH]; intros cur; [reflexivity|].
  simpl. rewrite fold_left_app. apply IH.
Qed.

Lemma replaceIfGlyph_absent t k cur m :
  forallb wellFormedEntry t = true -> codesNonEmpty t = true ->
  k <> [] -> Forall (fun r => isASCII r = false) k ->
  Contains cur k = false -> Contains (replaceIfGlyph t cur m) k = false.
Proof.
  intros Hwf Hne Hk Hkn H. unfold replaceIfGlyph.
  destruct (lookup t m) as [rep|] eqn:E; [|exact H].
  apply lookup_Some in E. rewrite forallb_forall in Hwf.
  destruct (wellFormedEntry_spec _ (Hwf _ E)) as (Hm & _ & Hrep). cbn [fst snd] in *.
  unfold codesNonEmpty in Hne. rewrite forallb_forall in Hne. specialize (Hne _ E).
  apply Contains_ReplaceAll; auto using apart_ASCII.
  intros ->. discriminate.
Qed.

Lemma fold_replaceIfGlyph_gone t l : forall cur m rep,
  forallb wellFormedEntry t = true -> codesNonEmpty t = true ->
  In m l -> lookup t m = Some rep ->
  Contains (fold_left (replaceIfGlyph t) l cur) m = false.
Proof.
  induction l as [|x l IH]; intros cur m rep Hwf Hne Hin E; [destruct Hin|].
  simpl. destruct Hin as [-> | Hin]; [|eapply IH; eassumption].
  pose proof (lookup_Some _ _ _ E) as He.
  assert (Hwf' := proj1 (forallb_forall _ _) Hwf _ He).
  destruct (wellFormedEntry_spec _ Hwf') as (Hm & Hmn & Hrep). cbn [fst snd] in *.
  assert (Hr : rep <> []).
  { unfold codesNonEmpty in Hne. rewrite forallb_forall in Hne. specialize (Hne _ He).
    intros ->. discriminate. }
  assert (G : Contains (replaceIfGlyph t cur m) m = false).
  { unfold replaceIfGlyph. rewrite E. apply ReplaceAll_gone; auto using apart_ASCII. }
  clear IH E He. revert G. generalize (replaceIfGlyph t cur m). clear cur.
  induction l as [|y l IH]; intros cur G; [exact G|].
  simpl. apply IH. apply replaceIfGlyph_absent; assumption.
Qed.

Lemma glyphTables_shape :
  forallb (fun t => forallb wellFormedEntry t && codesNonEmpty t) glyphTables = true.
Proof. reflexivity. Qed.

(** X12: every submatch that is a key of the table is replaced wherever it
    occurs: once the pass is over, it is nowhere in the working string. *)
Theorem matched_glyphs_replaced t re input sub m rep :
  In t glyphTables ->
  In sub (FindAllStringSubmatch re input) -> In m sub -> lookup t m = Some rep ->
  Contains (replaceModifiedGlyphs input t re) m = false.
Proof.
  intros Ht Hsub Hm E.
  pose proof glyphTables_shape as H. rewrite forallb_forall in H.
  specialize (H t Ht). apply andb_true_iff in H. destruct H as [Hwf Hne].
  rewrite replaceModifiedGlyphs_applyMatches, applyMatches_concat.
  apply (fold_replaceIfGlyph_gone t _ input m rep Hwf Hne); [|exact E].
  apply in_concat. exists sub. split; assumption.
Qed.

Lemma matched_glyphs_replaced_witness :
  Contains (replaceModifiedGlyphs (runes "ತುಂಬಾ") consonants (modConsonants (encoder asWritten)))
           (runes "ತ") = false.
Proof.
  apply (matched_glyphs_replaced consonants _ _
           [runes "ತು"; runes "ತು"; runes "ತ"; runes "ು"] (runes "ತ") (runes "0")).
  - simpl. tauto.
  - vm_compute. tauto.
  - simpl. tauto.
  - reflexivity.
Defined.

(** X13: the pass over modified consonants, and the one over modified vowels,
    touch nothing but keys of their table: every other rune beyond ASCII,
    the modifier of each match among them, stays where it is. *)
Theorem modifiers_stay_in_place t re input :
  In t [consonants; vowels] ->
  filter (fun r => negb (isASCII r) && negb (existsb (fun e => eqRunes (fst e) [r]) t))
         (replaceModifiedGlyphs input t re)
  = filter (fun r => negb (isASCII r) && negb (existsb (fun e => eqRunes (fst e) [r]) t))
           input.
Proof.
  intros Ht.
  assert (Hwf : forallb wellFormedEntry t = true /\ forallb singleRuneKey t = true).
  { destruct Ht as [<- | [<- | []]]; split; reflexivity. }
  destruct Hwf as [Hwf Hs].
  rewrite replaceModifiedGlyphs_applyMatches.
  set (keep := fun r => negb (isASCII r) && negb (existsb (fun e => eqRunes (fst e) [r]) t)).
  apply (applyMatches_invariant (fun s => filter keep s = filter keep input));
    [|reflexivity].
  intros cur g rep Hin <-.
  rewrite forallb_forall in Hwf, Hs.
  destruct (wellFormedEntry_spec _ (Hwf _ Hin)) as (_ & _ & Hrep).
  specialize (Hs _ Hin). unfold singleRuneKey in Hs. cbn [fst snd] in *.
  destruct g as [|a [|]]; try discriminate.
  rewrite ReplaceAll_rune, filter_flat_map.
  induction cur as [|c cur IH]; [reflexivity|]. simpl. rewrite IH.
  destruct (N.eqb_spec c a) as [-> | Hca].
  - assert (Ka : keep a = false).
    { unfold keep. apply andb_false_iff. right. apply negb_false_iff.
      apply existsb_exists. exists ([a], rep). split; [exact Hin|].
      apply eqRunes_eq. reflexivity. }
    rewrite Ka. replace (filter keep rep) with (@nil rune); [reflexivity|].
    symmetry. apply filter_none. revert Hrep. apply Forall_impl. intros r Hr.
    unfold keep. rewrite Hr. reflexivity.
  - simpl. destruct (keep c); reflexivity.
Qed.

Lemma modifiers_stay_in_place_witness :
  filter (fun r => negb (isASCII r)
                   && negb (existsb (fun e => eqRunes (fst e) [r]) consonants))
         (replaceModifiedGlyphs (runes "ತುಂಬಾ") consonants (modConsonants (encoder asWritten)))
  = filter (fun r => negb (isASCII r)
                     && negb (existsb (fun e => eqRunes (fst e) [r]) consonants))
           (runes "ತುಂಬಾ").
Proof. apply modifiers_stay_in_place. simpl. tauto. Defined.

(** ** Which patterns stop which copy, and where *)

Lemma Exists_compile_cons (compile : pattern -> option Regexp) p l :
  Exists (fun q => compile q = None) (p :: l)
  <-> compile p = None \/ Exists (fun q => compile q = None) l.
Proof. apply Exists_cons. Qed.

(** X1: tlphone.go stops during startup exactly when one of its seven
    patterns does not compile: in the package variables for the first four,
    in [New] for the other three. *)
Theorem startup_panics_iff compile nr cr input :
  ((exists msg, initVars compile = Panic msg)
   <-> Exists (fun p => compile p = None) packagePatterns)
  /\ ((exists msg, New compile nr = Panic msg)
      <-> Exists (fun p => compile p = None) (newPatterns nr))
  /\ ((exists msg, NewEncode compile nr cr input = Panic msg)
      <-> Exists (fun p => compile p = None) (packagePatterns ++ newPatterns nr)).
Proof.
  unfold NewEncode, initVars, New, MustCompile, packagePatterns, newPatterns.
  cbn [app]. rewrite !Exists_compile_cons, !Exists_nil.
  destruct (compile patKey0), (compile patKey1), (compile patNonTulu),
    (compile patAlphaNum),
    (compile (GlyphMod (keysOf (newCompounds nr)) (keysOf (newModifiers nr)))),
    (compile (GlyphMod (keysOf (newConsonants nr)) (keysOf (newModifiers nr)))),
    (compile (GlyphMod (keysOf (newVowels nr)) (keysOf (newModifiers nr))));
    cbn [bind];
    (split; [|split]); split;
    try (intros [msg H]; discriminate H);
    try (intros _; eexists; reflexivity);
    try tauto;
    intros H; exfalso; repeat (destruct H as [H | H]; try discriminate H); exact H.
Qed.

(** X14: the second copy never stops at startup; encoding a word panics
    exactly when one of its seven patterns did not compile. *)
Theorem secondCopy_panics_iff compile nr cr input :
  (exists msg, SecondCopy.NewEncode compile nr cr input = Panic msg)
  <-> Exists (fun p => compile p = None) (secondCopyPatterns nr).
Proof.
  unfold SecondCopy.NewEncode, SecondCopy.Encode, SecondCopy.process,
    SecondCopy.replaceModifiedGlyphs, SecondCopy.initVars, SecondCopy.New,
    SecondCopy.deref, secondCopyPatterns, newPatterns.
  cbn [app SecondCopy.regexKey0 SecondCopy.regexKey1 SecondCopy.regexNonTulu
       SecondCopy.regexAlphaNum SecondCopy.modCompounds SecondCopy.modConsonants
       SecondCopy.modVowels].
  rewrite !Exists_compile_cons, !Exists_nil.
  destruct (compile patKey0), (compile patKey1), (compile SecondCopy.patNonTulu),
    (compile patAlphaNum),
    (compile (GlyphMod (keysOf (newCompounds nr)) (keysOf (newModifiers nr)))),
    (compile (GlyphMod (keysOf (newConsonants nr)) (keysOf (newModifiers nr)))),
    (compile (GlyphMod (keysOf (newVowels nr)) (keysOf (newModifiers nr))));
    cbn [bind]; split;
    try (intros [msg H]; discriminate H);
    try (intros _; eexists; reflexivity);
    try tauto;
    intros H; exfalso; repeat (destruct H as [H | H]; try discriminate H); exact H.
Qed.

(** ** The two copies are one algorithm *)

Lemma Trim_nothing s : Trim s [] = s.
Proof.
  unfold Trim. cbn [existsb].
  assert (D : forall t : gostring, dropWhile (fun _ => false) t = t)
    by (intros [|c t]; reflexivity).
  rewrite !D. apply rev_involutive.
Qed.

(** X15: with a [regexp.Compile] that takes the script pattern of the second
    copy for that of tlphone.go, and is Go's on the other patterns, the
    second copy returns what tlphone.go returns, for every input:
    trimming nothing instead of white space makes no difference. *)
Theorem copies_agree compile nr cr input :
  compile SecondCopy.patNonTulu = Compile patNonTulu ->
  Forall (fun p => compile p = Compile p) ([patKey0; patKey1; patAlphaNum] ++ newPatterns nr) ->
  SecondCopy.NewEncode compile nr cr input = NewEncode Compile nr cr input.
Proof.
  intros Ht Hall.
  unfold newPatterns in Hall. cbn [app] in Hall.
  repeat match goal with
         | H : Forall _ (_ :: _) |- _ =>
           let E := fresh "E" in inversion H as [|? ? E ?]; subst; clear H
         end.
  rewrite NewEncode_Compile.
  unfold SecondCopy.NewEncode, SecondCopy.Encode, SecondCopy.process,
    SecondCopy.replaceModifiedGlyphs, SecondCopy.initVars, SecondCopy.New.
  cbn [SecondCopy.regexKey0 SecondCopy.regexKey1 SecondCopy.regexNonTulu
       SecondCopy.regexAlphaNum SecondCopy.modCompounds SecondCopy.modConsonants
       SecondCopy.modVowels].
  repeat match goal with
         | E : compile ?p = _ |- _ => rewrite E; clear E
         end.
  change (Compile patNonTulu) with (Some (regexNonTulu pkg)).
  change (Compile patKey0) with (Some (regexKey0 pkg)).
  change (Compile patKey1) with (Some (regexKey1 pkg)).
  change (Compile patAlphaNum) with (Some (regexAlphaNum pkg)).
  cbn [Compile SecondCopy.deref bind].
  rewrite Trim_nothing.
  unfold Encode, process. cbn [modCompounds modConsonants modVowels encoder].
  rewrite !regexNonTulu_filter, filter_TrimSpace. reflexivity.
Qed.

Lemma copies_agree_witness :
  SecondCopy.NewEncode compileTuluAsKannada asWritten asWrittenCall (runes " ತುಂಬಾ ")
  = NewEncode Compile asWritten asWrittenCall (runes " ತುಂಬಾ ").
Proof.
  apply copies_agree.
  - reflexivity.
  - repeat constructor.
Defined.

(** ** The order of [range] *)

Lemma FindAllStringSubmatch_Permutation glyphs glyphs' mods mods' input :
  prefixFree glyphs = true -> prefixFree mods = true ->
  Permutation glyphs glyphs' -> Permutation mods mods' ->
  FindAllStringSubmatch (ReGlyphMod glyphs' mods') input
  = FindAllStringSubmatch (ReGlyphMod glyphs mods) input.
Proof.
  intros. unfold FindAllStringSubmatch. apply findFrom_ext.
  intros s. apply matchAt_Permutation; assumption.
Qed.

(** X4: the matchers that [New] builds find the same matches in every string,
    in whatever order [New] met the keys of the maps. *)
Theorem matchers_any_order nr input :
  FindAllStringSubmatch (modCompounds (encoder nr)) input
  = FindAllStringSubmatch (modCompounds (encoder asWritten)) input
  /\ FindAllStringSubmatch (modConsonants (encoder nr)) input
     = FindAllStringSubmatch (modConsonants (encoder asWritten)) input
  /\ FindAllStringSubmatch (modVowels (encoder nr)) input
     = FindAllStringSubmatch (modVowels (encoder asWritten)) input.
Proof.
  destruct tables_prefixFree as (Hv & Hk & Hc & Hm).
  repeat split; apply FindAllStringSubmatch_Permutation;
    try assumption; apply Permutation_map;
    auto using newModifiers_perm, newCompounds_perm, newConsonants_perm, newVowels_perm.
Qed.

(** X3: when at most one compound key is left after the pass over modified
    compounds, the three keys are the same for every order in which the
    maps are visited. *)
Theorem keys_any_order nr cr nr' cr' input :
  oneCompound (afterModifiedCompounds input) = true ->
  NewEncode Compile nr cr input = NewEncode Compile nr' cr' input.
Proof.
  intros H. rewrite !NewEncode_Compile, !Encode_from_key2.
  rewrite (process_any_order nr cr input H), (process_any_order nr' cr' input H).
  reflexivity.
Qed.

Lemma keys_any_order_witness :
  NewEncode Compile backwards backwardsCall (runes "ಮಕ್ಕಳು")
  = NewEncode Compile asWritten asWrittenCall (runes "ಮಕ್ಕಳು").
Proof. apply keys_any_order. vm_compute. reflexivity. Defined.

(** ** The characters of the keys *)

Lemma Forall_skipn_rune (P : rune -> Prop) n : forall s, Forall P s -> Forall P (skipn n s).
Proof.
  induction n as [|n IH]; intros s H; [exact H|].
  destruct H as [|c s Hc Hs]; [constructor | apply IH, Hs].
Qed.

Lemma Forall_ReplaceAll (P : rune -> Prop) (old new s : gostring) :
  old <> [] -> Forall P new -> Forall P s -> Forall P (ReplaceAll s old new).
Proof.
  intros Hold Hnew.
  induction s as [| c s Hhit IH | c s Hmiss IH] using (ReplaceAll_ind old Hold); intros Hs.
  - rewrite (ReplaceAll_nil_eq old new Hold). constructor.
  - rewrite (ReplaceAll_cons old new Hold), Hhit. apply Forall_app. split; [exact Hnew|].
    apply IH, Forall_skipn_rune, Hs.
  - rewrite (ReplaceAll_cons old new Hold), Hmiss. inversion Hs; subst.
    constructor; [assumption | apply IH; assumption].
Qed.

Lemma codesFromCodes_spec wrapper t t' e :
  codesFromCodes wrapper t = true -> forallb wellFormedEntry t = true ->
  Permutation t t' -> In e t' ->
  fst e <> [] /\ Forall (fun r => fromCodes r = true) (wrapper (snd e)).
Proof.
  intros Hc Hwf HP He.
  destruct (wellFormedEntry_spec e (forallb_Permutation _ _ _ Hwf HP e He)) as (Hne & _).
  split; [exact Hne|]. apply Forall_forall.
  apply forallb_forall. exact (forallb_Permutation _ _ _ Hc HP e He).
Qed.

Lemma fromCodes_replaceEach wrapper t visit cur :
  codesFromCodes wrapper t = true -> forallb wellFormedEntry t = true ->
  Permutation t visit ->
  Forall (fun r => fromCodes r = true) cur ->
  Forall (fun r => fromCodes r = true) (replaceEach wrapper visit cur).
Proof.
  intros Hc Hwf HP.
  apply (replaceEach_invariant (Forall (fun r => fromCodes r = true))).
  intros c e He H.
  destruct (codesFromCodes_spec wrapper t visit e Hc Hwf HP He) as (Hne & Hnew).
  apply Forall_ReplaceAll; assumption.
Qed.

Lemma fromCodes_applyMatches t found cur :
  codesFromCodes (fun v => v) t = true -> forallb wellFormedEntry t = true ->
  Forall (fun r => fromCodes r = true) cur ->
  Forall (fun r => fromCodes r = true) (applyMatches t found cur).
Proof.
  intros Hc Hwf.
  apply (applyMatches_invariant (Forall (fun r => fromCodes r = true))).
  intros c g rep Hin H.
  destruct (codesFromCodes_spec (fun v => v) t t (g, rep) Hc Hwf (Permutation_refl _) Hin)
    as (Hne & Hnew).
  apply Forall_ReplaceAll; assumption.
Qed.

Lemma tables_codesFromCodes :
  codesFromCodes (fun v => v) compounds = true /\ codesFromCodes braced compounds = true
  /\ codesFromCodes (fun v => v) consonants = true /\ codesFromCodes braced consonants = true
  /\ codesFromCodes (fun v => v) vowels = true /\ codesFromCodes braced vowels = true
  /\ codesFromCodes (fun v => v) modifiers = true.
Proof. repeat split. Qed.

Lemma process_inCodes nr cr input :
  Forall (fun r => inCodes r = true) (process pkg (encoder nr) cr input).
Proof.
  destruct tables_codesFromCodes as (L1 & L2 & L3 & L4 & L5 & L6 & L7).
  destruct tables_wellFormed as (Hwv & Hwk & Hwc & Hwm).
  unfold process. rewrite regexNonTulu_filter, regexAlphaNum_filter.
  set (w := replacePlain _ _).
  assert (H : Forall (fun r => fromCodes r = true) w).
  { subst w.
    rewrite replacePlain_each, !replaceGrouped_each, !replaceModifiedGlyphs_applyMatches.
    apply (fromCodes_replaceEach _ modifiers); auto using rangeModifiers_perm.
    apply (fromCodes_replaceEach _ vowels); auto using rangeVowels_perm.
    apply (fromCodes_replaceEach _ consonants); auto using rangeConsonants_perm.
    apply fromCodes_applyMatches; auto.
    apply fromCodes_applyMatches; auto.
    apply (fromCodes_replaceEach _ compounds); auto using rangeCompounds_perm.
    apply fromCodes_applyMatches; auto.
    apply Forall_forall. intros r Hr. apply filter_In in Hr. destruct Hr as [_ Hr].
    unfold fromCodes. apply orb_true_iff. right. apply negb_true_iff.
    revert Hr. unfold Kannada, isAlphaNum, isDigit, isUpper, between, chr.
    change (N_of_ascii "0") with 48. change (N_of_ascii "9") with 57.
    change (N_of_ascii "A") with 65. change (N_of_ascii "Z") with 90.
    rewrite ?orb_true_iff, ?andb_true_iff, ?N.leb_le, ?orb_false_iff, ?andb_false_iff,
      ?N.leb_gt. lia. }
  apply Forall_forall. intros r Hr. apply filter_In in Hr. destruct Hr as [Hr Ha].
  rewrite Forall_forall in H. specialize (H r Hr). unfold fromCodes in H.
  rewrite Ha in H. simpl in H. rewrite orb_false_r in H. exact H.
Qed.

Lemma inCodes_letters r :
  inCodes r = true -> oneOf "0123456789ABCDEFGHIJKLMNOPRSTUVYZ" r = true.
Proof.
  unfold inCodes, oneOf. rewrite !existsb_exists. intros (x & Hx & E).
  exists x. split; [|exact E].
  assert (S : forallb (fun c => existsb (N.eqb c) (runes "0123456789ABCDEFGHIJKLMNOPRSTUVYZ"))
                      codeRunes = true) by (vm_compute; reflexivity).
  rewrite forallb_forall in S. specialize (S x Hx). apply existsb_exists in S.
  destruct S as (y & Hy & Ey). apply N.eqb_eq in Ey. subst y. exact Hy.
Qed.

(** X2: the keys are made of characters of the codes in the tables, and of
    nothing else: digits, and capital letters other than Q, W and X. *)
Theorem key_alphabet nr cr input :
  exists key0 key1 key2,
    NewEncode Compile nr cr input = Ok (key0, key1, key2)
    /\ Forall (fun r => inCodes r = true) (key0 ++ key1 ++ key2)
    /\ Forall (fun r => oneOf "0123456789ABCDEFGHIJKLMNOPRSTUVYZ" r = true)
              (key0 ++ key1 ++ key2).
Proof.
  rewrite NewEncode_Compile, Encode_from_key2.
  do 3 eexists. split; [reflexivity|].
  assert (H : Forall (fun r => inCodes r = true)
                (without "12456789" (process pkg (encoder nr) cr input)
                 ++ without "2456789" (process pkg (encoder nr) cr input)
                 ++ process pkg (encoder nr) cr input)).
  { pose proof (process_inCodes nr cr input) as P. rewrite Forall_forall in P.
    apply Forall_forall. intros r Hr.
    apply in_app_or in Hr. destruct Hr as [Hr | Hr];
      [apply filter_In in Hr; apply P, Hr|].
    apply in_app_or in Hr. destruct Hr as [Hr | Hr];
      [apply filter_In in Hr; apply P, Hr | apply P, Hr]. }
  split; [exact H|]. revert H. apply Forall_impl. exact inCodes_letters.
Qed.

(** * Compound glyphs, wherever they stand *)

(** ** Reading a word glyph by glyph *)

Lemma HasPrefix_refl k : HasPrefix k k = true.
Proof. rewrite <- (app_nil_r k) at 1. apply HasPrefix_app_same. Qed.

Lemma HasPrefix_app_join u : forall g post,
  HasPrefix g u = true -> HasPrefix post (skipn (length u) g) = true ->
  HasPrefix (u ++ post) g = true.
Proof.
  induction u as [|c u IH]; intros g post H1 H2; [exact H2|].
  destruct g as [|x g]; [discriminate|]. simpl in *.
  apply andb_true_iff in H1. destruct H1 as [Hx H1]. apply N.eqb_eq in Hx. subst x.
  rewrite N.eqb_refl. simpl. apply IH; assumption.
Qed.

Lemma ReplaceAll_hit (k post new : gostring) :
  k <> [] -> ReplaceAll (k ++ post) k new = new ++ ReplaceAll post k new.
Proof.
  intros Hk. destruct k as [|c k]; [congruence|]. simpl app.
  rewrite (ReplaceAll_cons (c :: k) new Hk).
  change (c :: k ++ post) with ((c :: k) ++ post).
  rewrite HasPrefix_app_same, skipn_app_same. reflexivity.
Qed.

(** A table of glyphs as [compounds] is one: keys beyond ASCII, none of
    them a prefix of another, and codes in ASCII. *)
Section Reading.

Variable t : table.
Variable single : rune -> gostring.

Hypothesis t_wf : forall e, In e t ->
  fst e <> [] /\ Forall (fun r => isASCII r = false) (fst e)
  /\ Forall (fun r => isASCII r = true) (snd e).
Hypothesis t_prefixFree : forall a b, In a t -> In b t ->
  HasPrefix (fst a) (fst b) = true -> a = b.

Lemma glyphAt_Some s e : glyphAt t s = Some e -> In e t /\ HasPrefix s (fst e) = true.
Proof. apply find_some. Qed.

Lemma glyphAt_None s e : glyphAt t s = None -> In e t -> HasPrefix s (fst e) = false.
Proof. intros H He. exact (find_none _ _ H e He). Qed.

Lemma glyphAt_key s e : In e t -> HasPrefix s (fst e) = true -> glyphAt t s = Some e.
Proof.
  intros He Hp. destruct (glyphAt t s) as [e'|] eqn:E.
  - destruct (glyphAt_Some s e' E) as (He' & Hp'). f_equal.
    destruct (HasPrefix_both _ _ _ Hp Hp') as [H | H].
    + symmetry. exact (t_prefixFree e e' He He' H).
    + exact (t_prefixFree e' e He' He H).
  - rewrite (glyphAt_None s e E He) in Hp. discriminate.
Qed.

Lemma glyphAt_nil : glyphAt t [] = None.
Proof.
  destruct (glyphAt t []) as [e|] eqn:E; [|reflexivity].
  destruct (glyphAt_Some _ _ E) as (He & Hp).
  destruct (t_wf e He) as (Hne & _). rewrite HasPrefix_nil_l in Hp by exact Hne.
  discriminate.
Qed.

Lemma glyphAt_ASCII c s : isASCII c = true -> glyphAt t (c :: s) = None.
Proof.
  intros Hc. destruct (glyphAt t (c :: s)) as [e|] eqn:E; [|reflexivity].
  destruct (glyphAt_Some _ _ E) as (He & Hp).
  destruct (t_wf e He) as (Hne & Hk & _).
  destruct (fst e) as [|x k]; [congruence|]. inversion Hk; subst.
  simpl in Hp. apply andb_true_iff in Hp. destruct Hp as [Hx _].
  apply N.eqb_eq in Hx. congruence.
Qed.

(** Enough fuel: more changes nothing. *)
Lemma readFrom_enough : forall fuel fuel' s,
  (length s <= fuel)%nat -> (length s <= fuel')%nat ->
  readFrom t single fuel s = readFrom t single fuel' s.
Proof.
  induction fuel as [|fuel IH]; intros fuel' s Hlen Hlen'.
  - destruct s; [destruct fuel'; reflexivity | simpl in Hlen; lia].
  - destruct s as [|c s]; [destruct fuel'; reflexivity|]. simpl in Hlen, Hlen'.
    destruct fuel' as [|fuel']; [lia|].
    cbn [readFrom]. destruct (glyphAt t (c :: s)) as [e|] eqn:E.
    + destruct (glyphAt_Some _ _ E) as (He & _).
      pose proof (skipn_key_shorter (fst e) c s (proj1 (t_wf e He))).
      f_equal. apply IH; lia.
    + f_equal. apply IH; lia.
Qed.

Lemma readWith_cons c s :
  readWith t single (c :: s)
  = match glyphAt t (c :: s) with
    | Some e => snd e ++ readWith t single (skipn (length (fst e)) (c :: s))
    | None => single c ++ readWith t single s
    end.
Proof.
  unfold readWith. cbn [readFrom length].
  destruct (glyphAt t (c :: s)) as [e|] eqn:E; [|reflexivity].
  destruct (glyphAt_Some _ _ E) as (He & _).
  pose proof (skipn_key_shorter (fst e) c s (proj1 (t_wf e He))).
  f_equal. apply readFrom_enough; lia.
Qed.

(** Induction over the way a word is read. *)
Lemma read_ind (P : gostring -> Prop) :
  P [] ->
  (forall c s e, glyphAt t (c :: s) = Some e ->
                 P (skipn (length (fst e)) (c :: s)) -> P (c :: s)) ->
  (forall c s, glyphAt t (c :: s) = None -> P s -> P (c :: s)) ->
  forall s, P s.
Proof.
  intros Hnil Hhit Hmiss s.
  assert (H : forall n s, (length s <= n)%nat -> P s).
  { clear s. induction n as [|n IH]; intros s Hlen.
    - destruct s; [exact Hnil | simpl in Hlen; lia].
    - destruct s as [|c s]; [exact Hnil|]. simpl in Hlen.
      destruct (glyphAt t (c :: s)) as [e|] eqn:E.
      + destruct (glyphAt_Some _ _ E) as (He & _).
        pose proof (skipn_key_shorter (fst e) c s (proj1 (t_wf e He))).
        apply (Hhit c s e E). apply IH. lia.
      + apply Hmiss; [exact E|]. apply IH. lia. }
  apply (H (length s)). lia.
Qed.

(** A key at the front is read as its code. *)
Lemma readWith_hit e x :
  In e t -> readWith t single (fst e ++ x) = snd e ++ readWith t single x.
Proof.
  intros He. destruct (t_wf e He) as (Hne & _).
  assert (G : glyphAt t (fst e ++ x) = Some e)
    by (apply glyphAt_key; [exact He | apply HasPrefix_app_same]).
  destruct (fst e ++ x) as [|c s] eqn:Es.
  - destruct (fst e); [congruence | discriminate].
  - rewrite readWith_cons, G, <- Es, skipn_app_same. reflexivity.
Qed.

Lemma readWith_ASCII a x :
  Forall (fun r => isASCII r = true) a ->
  readWith t single (a ++ x) = flat_map single a ++ readWith t single x.
Proof.
  induction 1 as [|c a Hc Ha IH]; [reflexivity|].
  simpl app. rewrite readWith_cons, (glyphAt_ASCII c (a ++ x) Hc), IH.
  simpl. rewrite app_assoc. reflexivity.
Qed.

(** Where no key occurs the word is read rune by rune. *)
Lemma readWith_plain s :
  (forall e, In e t -> Contains s (fst e) = false) ->
  readWith t single s = flat_map single s.
Proof.
  induction s as [|c s IH]; intros H; [reflexivity|].
  rewrite readWith_cons.
  destruct (glyphAt t (c :: s)) as [e|] eqn:E.
  - destruct (glyphAt_Some _ _ E) as (He & Hp).
    specialize (H e He). rewrite Contains_cons, Hp in H. discriminate.
  - simpl. f_equal. apply IH. intros e He. exact (Contains_tail c s _ (H e He)).
Qed.

(** Two ways to spell a rune that agree on the runes of the word. *)
Lemma readWith_agree (single' : rune -> gostring) (P : rune -> Prop) :
  (forall c, P c -> single c = single' c) ->
  forall s, Forall P s -> readFrom t single (length s) s = readFrom t single' (length s) s.
Proof.
  intros H.
  assert (G : forall fuel s, Forall P s ->
                readFrom t single fuel s = readFrom t single' fuel s).
  { induction fuel as [|fuel IH]; intros s Hs; [reflexivity|].
    destruct s as [|c s]; [reflexivity|]. cbn [readFrom].
    destruct (glyphAt t (c :: s)) as [e|].
    - f_equal. apply IH. apply Forall_forall. intros r Hr.
      rewrite Forall_forall in Hs. apply Hs.
      rewrite <- (firstn_skipn (length (fst e)) (c :: s)). apply in_or_app. right. exact Hr.
    - inversion Hs; subst. rewrite (H c) by assumption. f_equal. apply IH. assumption. }
  intros s Hs. apply G, Hs.
Qed.

Lemma disjointIn_cons c s : disjointIn t (c :: s) = apartAt t (c :: s) && disjointIn t s.
Proof. reflexivity. Qed.

Lemma disjointIn_skipn n : forall s, disjointIn t s = true -> disjointIn t (skipn n s) = true.
Proof.
  induction n as [|n IH]; intros s H; [exact H|].
  destruct s as [|c s]; [exact H|]. rewrite disjointIn_cons in H.
  apply andb_true_iff in H. apply IH, H.
Qed.

Lemma disjointIn_head s : disjointIn t s = true -> apartAt t s = true.
Proof. destruct s; simpl; intros H; apply andb_true_iff in H; tauto. Qed.

Lemma apartAt_None s : glyphAt t s = None -> apartAt t s = true.
Proof. unfold apartAt. intros ->. reflexivity. Qed.

Lemma disjointIn_nil : disjointIn t [] = true.
Proof. simpl. rewrite apartAt_None; [reflexivity | apply glyphAt_nil]. Qed.

Lemma disjointIn_ASCII a x :
  Forall (fun r => isASCII r = true) a -> disjointIn t x = true ->
  disjointIn t (a ++ x) = true.
Proof.
  intros Ha Hx. induction Ha as [|c a Hc Ha IH]; [exact Hx|].
  simpl app. rewrite disjointIn_cons, IH, andb_true_r.
  apply apartAt_None, glyphAt_ASCII, Hc.
Qed.

(** After the key that begins [s], no key begins before it ends. *)
Lemma apartAt_spec s e u g :
  glyphAt t s = Some e -> apartAt t s = true ->
  In u (suffixes (tl (fst e))) -> In g t ->
  HasPrefix (u ++ skipn (length (fst e)) s) (fst g) = false.
Proof.
  unfold apartAt. intros -> H Hu Hg. rewrite forallb_forall in H.
  specialize (H u Hu).
  destruct (glyphAt t (u ++ skipn (length (fst e)) s)) eqn:E; [discriminate|].
  exact (glyphAt_None _ g E Hg).
Qed.

Lemma disjointIn_past u : forall x,
  (forall v, In v (suffixes u) -> glyphAt t (v ++ x) = None) ->
  disjointIn t x = true -> disjointIn t (u ++ x) = true.
Proof.
  induction u as [|c u IH]; intros x H Hx; [exact Hx|].
  simpl app. rewrite disjointIn_cons, IH, andb_true_r.
  - apply apartAt_None. apply (H (c :: u)). left. reflexivity.
  - intros v Hv. apply H. right. exact Hv.
  - exact Hx.
Qed.

(** A key followed by [x], when no key begins inside it. *)
Lemma disjointIn_key e x :
  In e t ->
  (forall v, In v (suffixes (tl (fst e))) -> glyphAt t (v ++ x) = None) ->
  disjointIn t x = true -> disjointIn t (fst e ++ x) = true.
Proof.
  intros He H Hx. destruct (t_wf e He) as (Hne & _).
  assert (G : glyphAt t (fst e ++ x) = Some e)
    by (apply glyphAt_key; [exact He | apply HasPrefix_app_same]).
  assert (A : apartAt t (fst e ++ x) = true).
  { unfold apartAt. rewrite G, skipn_app_same. apply forallb_forall.
    intros v Hv. rewrite (H v Hv). reflexivity. }
  destruct (fst e) as [|c k] eqn:Ek; [congruence|]. simpl app in *.
  rewrite disjointIn_cons, A. simpl. apply disjointIn_past; assumption.
Qed.

(** One replacement of a key by something worth its code changes neither
    what the word reads as nor that its glyphs are disjoint. *)
Lemma read_ReplaceAll e (new : gostring) :
  In e t -> new <> [] -> Forall (fun r => isASCII r = true) new ->
  flat_map single new = snd e ->
  forall s : gostring, disjointIn t s = true ->
    readWith t single (ReplaceAll s (fst e) new) = readWith t single s
    /\ disjointIn t (ReplaceAll s (fst e) new) = true.
Proof.
  intros He Hnew Hascii Hworth.
  destruct (t_wf e He) as (Hne & Hk & _).
  assert (Hap : forall g, In g t -> forall n, apart (skipn n (fst g)) new).
  { intros g Hg n. apply apart_ASCII; [|exact Hascii].
    destruct (t_wf g Hg) as (_ & Hgk & _).
    apply Forall_forall. intros r Hr. rewrite Forall_forall in Hgk. apply Hgk.
    rewrite <- (firstn_skipn n (fst g)). apply in_or_app. right. exact Hr. }
  intros s. induction s as [| c s e' E IH | c s E IH] using read_ind; intros Hd.
  - rewrite (ReplaceAll_nil_eq _ new Hne). split; [reflexivity | exact Hd].
  - destruct (glyphAt_Some _ _ E) as (He' & Hp').
    destruct (t_wf e' He') as (Hne' & _).
    specialize (IH (disjointIn_skipn _ _ Hd)).
    assert (A := fun u g => apartAt_spec _ _ u g E (disjointIn_head _ Hd)).
    rewrite (HasPrefix_split _ _ Hp') in *.
    set (post := skipn (length (fst e')) (c :: s)) in *.
    rewrite skipn_app_same in IH, A. destruct IH as [IHr IHd].
    destruct (eqRunes (fst e') (fst e)) eqn:Ek.
    + apply eqRunes_eq in Ek.
      assert (e' = e) by (apply t_prefixFree; [| |rewrite Ek; apply HasPrefix_refl]; assumption).
      subst e'. rewrite (ReplaceAll_hit _ post new Hne).
      rewrite readWith_ASCII, Hworth, IHr, readWith_hit by assumption.
      split; [reflexivity | apply disjointIn_ASCII; assumption].
    + assert (Hpast : ReplaceAll (fst e' ++ post) (fst e) new
                      = fst e' ++ ReplaceAll post (fst e) new).
      { apply ReplaceAll_past; [exact Hne|]. intros u Hu.
        destruct (fst e') as [|x k'] eqn:Ek'; [congruence|].
        destruct Hu as [<- | Hu].
        - destruct (HasPrefix ((x :: k') ++ post) (fst e)) eqn:Hp; [|reflexivity].
          exfalso. rewrite <- Ek' in Hp.
          assert (G := glyphAt_key _ _ He Hp).
          assert (G' : glyphAt t (fst e' ++ post) = Some e')
            by (apply glyphAt_key; [exact He' | apply HasPrefix_app_same]).
          rewrite G in G'. injection G' as ->.
          rewrite Ek' in Ek. rewrite (proj2 (eqRunes_eq _ _) eq_refl) in Ek. discriminate.
        - apply A; [exact Hu | exact He]. }
      rewrite Hpast, !readWith_hit, IHr by assumption.
      split; [reflexivity|].
      apply disjointIn_key; [exact He' | | exact IHd].
      intros v Hv.
      destruct (glyphAt t (v ++ ReplaceAll post (fst e) new)) as [g|] eqn:G; [|reflexivity].
      exfalso. destruct (glyphAt_Some _ _ G) as (Hg & Hpg).
      specialize (A v g Hv Hg).
      destruct (HasPrefix_app_cases v _ _ Hpg) as [H1 | [H1 H2]].
      * rewrite (HasPrefix_app_l v post _ H1) in A. discriminate.
      * apply (HasPrefix_ReplaceAll (fst e) new Hne Hnew) in H2; [|apply Hap, Hg].
        rewrite (HasPrefix_app_join v _ post H1 H2) in A. discriminate.
  - assert (Hmiss : HasPrefix (c :: s) (fst e) = false) by exact (glyphAt_None _ e E He).
    assert (R : ReplaceAll (c :: s) (fst e) new = c :: ReplaceAll s (fst e) new)
      by (rewrite (ReplaceAll_cons _ new Hne), Hmiss; reflexivity).
    rewrite disjointIn_cons in Hd. apply andb_true_iff in Hd. destruct Hd as [_ Hd].
    destruct (IH Hd) as [IHr IHd].
    assert (G : glyphAt t (c :: ReplaceAll s (fst e) new) = None).
    { destruct (glyphAt t (c :: ReplaceAll s (fst e) new)) as [g|] eqn:G; [|reflexivity].
      exfalso. destruct (glyphAt_Some _ _ G) as (Hg & Hpg). rewrite <- R in Hpg.
      apply (HasPrefix_ReplaceAll (fst e) new Hne Hnew) in Hpg.
      - rewrite (glyphAt_None _ g E Hg) in Hpg. discriminate.
      - exact (Hap g Hg 0%nat). }
    rewrite R, !readWith_cons, G, E, IHr, disjointIn_cons, IHd, (apartAt_None _ G).
    split; reflexivity.
Qed.

Lemma suffixes_app (a r : gostring) : r <> [] -> In r (suffixes (a ++ r)).
Proof.
  intros Hr. induction a as [|c a IH]; simpl.
  - destruct r; [congruence | left; reflexivity].
  - right. exact IH.
Qed.

(** In a word whose glyphs are disjoint, a key reads as its code wherever
    it stands, between what comes before it and what comes after. *)
Lemma readWith_app_key e post :
  In e t -> forall pre : gostring,
  disjointIn t (pre ++ fst e ++ post) = true ->
  readWith t single (pre ++ fst e ++ post)
  = readWith t single pre ++ snd e ++ readWith t single post.
Proof.
  intros He. destruct (t_wf e He) as (Hne & _).
  intros pre. induction pre as [| c s e' E IH | c s E IH] using read_ind; intros Hd.
  - simpl app. apply readWith_hit, He.
  - destruct (glyphAt_Some _ _ E) as (He' & Hp').
    rewrite (readWith_cons c s), E.
    rewrite (HasPrefix_split _ _ Hp') in Hd |- * at 1.
    set (rest := skipn (length (fst e')) (c :: s)) in *.
    rewrite <- app_assoc in Hd |- *. rewrite readWith_hit by exact He'.
    apply (disjointIn_skipn (length (fst e'))) in Hd. rewrite skipn_app_same in Hd.
    rewrite (IH Hd), app_assoc. reflexivity.
  - assert (G : glyphAt t ((c :: s) ++ fst e ++ post) = None).
    { destruct (glyphAt t ((c :: s) ++ fst e ++ post)) as [g|] eqn:G; [|reflexivity].
      exfalso. destruct (glyphAt_Some _ _ G) as (Hg & Hpg).
      destruct (HasPrefix_app_cases _ _ _ Hpg) as [H | [H1 H2]].
      - rewrite (glyphAt_None _ g E Hg) in H. discriminate.
      - assert (Eg := HasPrefix_split _ _ H1).
        set (r := skipn (length (c :: s)) (fst g)) in *.
        assert (Hr : r <> []).
        { intros Er. rewrite Er, app_nil_r in Eg.
          pose proof (glyphAt_None _ g E Hg) as N.
          rewrite Eg, HasPrefix_refl in N. discriminate. }
        assert (Hin : In r (suffixes (tl (fst g)))).
        { rewrite Eg. simpl. apply suffixes_app, Hr. }
        pose proof (apartAt_spec _ _ r e G (disjointIn_head _ Hd) Hin He) as A.
        assert (Ew : r ++ skipn (length (fst g)) ((c :: s) ++ fst e ++ post)
                     = fst e ++ post).
        { pose proof (HasPrefix_split _ _ Hpg) as Ew. rewrite Eg in Ew at 1.
          rewrite <- app_assoc in Ew. apply app_inv_head in Ew. symmetry. exact Ew. }
        rewrite Ew, HasPrefix_app_same in A. discriminate. }
    simpl app in *. rewrite !readWith_cons, G, E.
    rewrite disjointIn_cons in Hd. apply andb_true_iff in Hd.
    rewrite (IH (proj2 Hd)), app_assoc. reflexivity.
Qed.

End Reading.

(** ** The compounds of a word whose glyphs are disjoint *)

Lemma compounds_wf e :
  In e compounds ->
  fst e <> [] /\ Forall (fun r => isASCII r = false) (fst e)
  /\ Forall (fun r => isASCII r = true) (snd e).
Proof. destruct e as [g rep]. apply compound_ASCII. Qed.

Lemma compounds_prefixFree a b :
  In a compounds -> In b compounds -> HasPrefix (fst a) (fst b) = true -> a = b.
Proof.
  intros Ha Hb H. destruct tables_prefixFree as (_ & _ & Hp & _).
  unfold prefixFree in Hp. rewrite forallb_forall in Hp.
  specialize (Hp (fst a) (in_map fst _ _ Ha)). rewrite forallb_forall in Hp.
  specialize (Hp (fst b) (in_map fst _ _ Hb)). rewrite H in Hp. simpl in Hp.
  apply eqRunes_eq in Hp. destruct a as [k v], b as [k' v']. simpl in Hp. subst k'.
  f_equal. exact (compound_code k v' v Hb Ha).
Qed.

(** A character of a code is left alone by the last loops, a brace is
    dropped by the final filter. *)
Lemma eventually_ASCII c : isASCII c = true -> eventually c = filter isAlphaNum [c].
Proof.
  intros Hc. destruct tables_wellFormed as (Hwv & Hwk & _ & Hwm).
  rewrite forallb_forall in Hwv, Hwk, Hwm.
  unfold eventually, eventuallyIn, substRune.
  rewrite (lookup_ASCII consonants c Hwk Hc).
  rewrite (substAll_ASCII braced vowels [c] Hwv) by (constructor; [exact Hc | constructor]).
  rewrite (substAll_ASCII (fun v => v) modifiers [c] Hwm)
    by (constructor; [exact Hc | constructor]).
  reflexivity.
Qed.

Lemma flat_map_eventually_ASCII a :
  Forall (fun r => isASCII r = true) a -> flat_map eventually a = filter isAlphaNum a.
Proof.
  induction 1 as [|c a Hc Ha IH]; [reflexivity|].
  cbn [flat_map]. rewrite IH, (eventually_ASCII c Hc), <- filter_app. reflexivity.
Qed.

(** What the working string reads as, and that its compounds are
    disjoint, is kept by every replacement of the passes over compounds. *)
Lemma reading_kept (wrapper : gostring -> gostring) s cur e :
  (wrapper = braced \/ wrapper = (fun v => v)) ->
  In e compounds ->
  readWith compounds eventually cur = readWith compounds eventually s
  /\ disjointIn compounds cur = true ->
  readWith compounds eventually (ReplaceAll cur (fst e) (wrapper (snd e)))
  = readWith compounds eventually s
  /\ disjointIn compounds (ReplaceAll cur (fst e) (wrapper (snd e))) = true.
Proof.
  intros Hw He [Hr Hd]. destruct e as [k v].
  destruct (compoundsShape_spec k v He) as (Hv & Ha & _).
  destruct (compound_ASCII k v He) as (_ & _ & Hascii). cbn [fst snd] in *.
  assert (H : wrapper v <> [] /\ Forall (fun r => isASCII r = true) (wrapper v)
              /\ flat_map eventually (wrapper v) = v).
  { destruct Hw as [-> | ->].
    - split; [apply braced_nonempty|]. split; [apply braced_ASCII, Hascii|].
      rewrite flat_map_eventually_ASCII by apply braced_ASCII, Hascii.
      rewrite <- (app_nil_r (braced v)), filter_braced, (filter_all _ _ Ha).
      apply app_nil_r.
    - split; [exact Hv|]. split; [exact Hascii|].
      rewrite flat_map_eventually_ASCII by exact Hascii. apply filter_all, Ha. }
  destruct H as (H1 & H2 & H3).
  destruct (read_ReplaceAll compounds eventually compounds_wf compounds_prefixFree
              (k, v) (wrapper v) He H1 H2 H3 cur Hd) as [R D].
  split; [rewrite <- Hr; exact R | exact D].
Qed.

(** The passes over compounds keep the reading, the later passes and
    the final filter give each rune what it reads as. *)
Lemma process_spell nr cr input :
  disjointCompounds (filter Kannada input) = true ->
  process pkg (encoder nr) cr input = spell (filter Kannada input).
Proof.
  intros H. destruct tables_sameEventually as (Sk & Sv).
  unfold process. rewrite regexNonTulu_filter, regexAlphaNum_filter, filter_TrimSpace.
  rewrite finish_eventually, !replaceModifiedGlyphs_applyMatches.
  rewrite !eventually_applyMatches by assumption.
  set (s := filter Kannada input) in *.
  set (found := FindAllStringSubmatch _ s).
  rewrite replaceGrouped_each.
  set (Inv := fun cur : gostring =>
         readWith compounds eventually cur = readWith compounds eventually s
         /\ disjointIn compounds cur = true).
  assert (I1 : Inv (applyMatches compounds found s)).
  { apply (applyMatches_invariant Inv); [|split; [reflexivity | exact H]].
    intros cur g rep Hin Hcur.
    exact (reading_kept (fun v => v) s cur (g, rep) (or_intror eq_refl) Hin Hcur). }
  assert (I2 : Inv (replaceEach braced (rangeCompounds cr) (applyMatches compounds found s))).
  { apply (replaceEach_invariant Inv); [|exact I1].
    intros cur e Hin Hcur.
    apply (reading_kept braced s cur e (or_introl eq_refl)); [|exact Hcur].
    exact (Permutation_in _ (Permutation_sym (rangeCompounds_perm cr)) Hin). }
  destruct I2 as [R _].
  rewrite <- (readWith_plain compounds eventually compounds_wf).
  - rewrite R. unfold spell, readWith.
    apply (readWith_agree compounds eventually codeOf (fun r => Kannada r = true)).
    + intros c Hc. apply eventually_codeOf, Kannada_not_ASCII, Hc.
    + apply filter_Forall_true.
  - intros e He.
    apply (replaceEach_gone braced braced_ASCII braced_nonempty).
    + apply (forallb_Permutation wellFormedEntry compounds);
        [apply tables_wellFormed | apply rangeCompounds_perm].
    + apply (Permutation_in _ (rangeCompounds_perm cr) He).
Qed.

(** In a word whose compound glyphs are disjoint, what is spelled around
    a compound glyph: the glyphs before it, its code, the glyphs after. *)
Lemma spell_around pre e post :
  In e compounds -> disjointCompounds (pre ++ fst e ++ post) = true ->
  spell (pre ++ fst e ++ post) = spell pre ++ snd e ++ spell post.
Proof.
  intros He.
  exact (readWith_app_key compounds codeOf compounds_wf compounds_prefixFree e post He pre).
Qed.

(** C5, as first worded, fails at the word ಕ್ಷುಕ್ಕ್ಷ: the compound ಕ್ಕ, whose
    code is K2, occurs in it, and no K2 occurs in [key2], KS15KKS1,
    whatever order the maps are visited in.  The compounds ಕ್ಕ and ಕ್ಷ
    overlap there; ಕ್ಷ, met first with a modifier after it, is replaced
    wherever it occurs, and with it goes the last rune of ಕ್ಕ: what is left
    of ಕ್ಕ is encoded as the consonant ಕ, K, and a virama. *)
Lemma overlapping_compounds_counterexample :
  Contains (runes "ಕ್ಷುಕ್ಕ್ಷ") (runes "ಕ್ಕ") = true
  /\ lookup compounds (runes "ಕ್ಕ") = Some (runes "K2")
  /\ lookup consonants (runes "ಕ") = Some (runes "K")
  /\ (forall nr cr,
        NewEncode Compile nr cr (runes "ಕ್ಷುಕ್ಕ್ಷ")
        = Ok (runes "KSKKS", runes "KS1KKS1", runes "KS15KKS1"))
  /\ Contains (runes "KS15KKS1") (runes "K2") = false
  /\ disjointCompounds (runes "ಕ್ಷುಕ್ಕ್ಷ") = false.
Proof.
  split; [vm_compute; reflexivity|]. split; [vm_compute; reflexivity|].
  split; [vm_compute; reflexivity|].
  split; [|split; vm_compute; reflexivity].
  intros nr cr. rewrite NewEncode_any_order; vm_compute; reflexivity.
Qed.

(** C5, as amended: the passes over [compounds] come before every pass
    over [consonants]; when they are over no compound key is left in the
    working string; a compound, alone or followed by any consonant (those
    that begin another compound among them), is encoded as the code of the
    compound, then that of the consonant; whatever follows a compound at
    the front of a word, [key2] begins with the code of the compound; and
    in every word whose compound glyphs do not overlap one another, each
    compound glyph, wherever it stands, is encoded as the code of the
    compound: [key2] is the word spelled out glyph by glyph, which around
    each compound glyph is what comes before it spelled out, the code of
    the compound, and what comes after it spelled out. *)
Theorem compounds_take_precedence nr cr :
  (forall input,
     process pkg (encoder nr) cr input
     = laterPasses pkg (encoder nr) cr (compoundPasses pkg (encoder nr) cr input))
  /\ (forall input,
        Forall (fun e => Contains (compoundPasses pkg (encoder nr) cr input) (fst e) = false)
               compounds)
  /\ Forall (fun e =>
       (exists key0 key1, NewEncode Compile nr cr (fst e) = Ok (key0, key1, snd e))
       /\ Forall (fun c =>
            exists key0 key1,
              NewEncode Compile nr cr (fst e ++ fst c) = Ok (key0, key1, snd e ++ snd c))
            consonants)
       compounds
  /\ Forall (fun e =>
       forall rest, exists key0 key1 tail,
         NewEncode Compile nr cr (fst e ++ rest) = Ok (key0, key1, snd e ++ tail))
       compounds
  /\ (forall input,
        disjointCompounds (filter Kannada input) = true ->
        NewEncode Compile nr cr input
        = Ok (without "12456789" (spell (filter Kannada input)),
              without "2456789" (spell (filter Kannada input)),
              spell (filter Kannada input))
        /\ forall pre e post,
             In e compounds -> filter Kannada input = pre ++ fst e ++ post ->
             spell (filter Kannada input) = spell pre ++ snd e ++ spell post).
Proof.
  split; [reflexivity|]. split; [intros; apply compoundPasses_gone|].
  split; [|split].
  - apply Forall_forall. intros e He.
    pose proof compounds_checked as H. rewrite forallb_forall in H.
    specialize (H e He). apply andb_true_iff in H. destruct H as [Ha Hc]. split.
    + unfold compoundAlone in Ha. apply andb_true_iff in Ha. destruct Ha as [H1 H2].
      apply eqRunes_eq in H2. apply NewEncode_key2; assumption.
    + apply Forall_forall. intros c Hin. rewrite forallb_forall in Hc.
      specialize (Hc c Hin). unfold compoundThen in Hc.
      apply andb_true_iff in Hc. destruct Hc as [H1 H2]. apply eqRunes_eq in H2.
      apply NewEncode_key2; assumption.
  - apply Forall_forall. intros [k v] He rest. cbn [fst snd].
    rewrite NewEncode_Compile, Encode_from_key2.
    exists (without "12456789" (process pkg (encoder nr) cr (k ++ rest))),
           (without "2456789" (process pkg (encoder nr) cr (k ++ rest))),
           (skipn (length v) (process pkg (encoder nr) cr (k ++ rest))).
    rewrite <- (HasPrefix_split _ _ (process_leading_compound nr cr k v rest He)).
    reflexivity.
  - intros input H. split.
    + rewrite NewEncode_Compile, Encode_from_key2, (process_spell nr cr input H).
      reflexivity.
    + intros pre e post He E. rewrite E in H |- *. apply spell_around; assumption.
Qed.

Lemma compounds_take_precedence_witness :
  NewEncode Compile asWritten asWrittenCall (runes "ಮಕ್ಕಳು")
  = Ok (without "12456789" (spell (filter Kannada (runes "ಮಕ್ಕಳು"))),
        without "2456789" (spell (filter Kannada (runes "ಮಕ್ಕಳು"))),
        spell (filter Kannada (runes "ಮಕ್ಕಳು")))
  /\ spell (filter Kannada (runes "ಮಕ್ಕಳು")) = runes "MK2L15".
Proof.
  split; [|vm_compute; reflexivity].
  apply (proj2 (proj2 (proj2 (proj2 (compounds_take_precedence asWritten asWrittenCall))))).
  vm_compute. reflexivity.
Defined.
